(** * GoPro GPS extractor: the driver script [GPSExtractor/extractGPS.js]

    A shallow embedding of the script and the properties its specification
    states about it.  The script has two parts:

    - [bufferAppender], the loader that streams a video file to the
      decoder's [mp4boxFile] object through a Node read stream;
    - the top level, which checks [process.argv], starts one
      [gpmfExtract] promise per input file, joins them with [Promise.all],
      hands the payloads to [goproTelemetry] and writes the result.

    The Node runtime pieces the script relies on (the read stream of [fs],
    the event emitter, promises) are modelled next to the code that uses
    them; the two libraries [gpmf-extract] and [gopro-telemetry] are
    external and appear only through the calls made to them and the
    settlements they deliver. *)

From stdpp Require Import gmap strings list.
From Stdlib Require Import ZArith Lia Strings.Byte Sorting.Sorted.

Open Scope Z_scope.

(** JavaScript exceptions and rejection reasons: the message is all the
    script ever does with them ([console.error]). *)
Definition error := string.

Definition bytes := list byte.

(** ** The read stream of [fs] *)

Module Stream.

(** A file on disk.  [read_fault = Some (k, e)] says that the [k]-th
    [fs.read] issued by a stream on this file (counted from 0) fails
    with [e]; [None] is a file that reads to its end. *)
Record file := File { contents : bytes; read_fault : option (nat * error) }.

Abbreviation disk := (gmap string file).

(** What a readable stream emits. *)
Inductive event :=
| EData (chunk : bytes)
| EEnd
| EError (e : error).

(** One [fs.read] of at most [n] bytes on a regular file: the block
    delivered and what is left of the file. *)
Fixpoint read (n : Z) (rest : bytes) : bytes * bytes :=
  match rest with
  | [] => ([], [])
  | b :: rest' =>
      if n <=? 0 then ([], rest)
      else let '(chunk, tail) := read (n - 1) rest' in (b :: chunk, tail)
  end.

Definition fault_at (fault : option (nat * error)) (k : nat) : option error :=
  match fault with
  | Some (j, e) => if Nat.eqb j k then Some e else None
  | None => None
  end.

(** The stream's read loop: every turn asks for [highWaterMark] bytes;
    a failed read destroys the stream with ['error'], a read of zero
    bytes ends it with ['end'], anything else is pushed as ['data']. *)
Fixpoint read_loop (fuel : nat) (highWaterMark : Z)
    (fault : option (nat * error)) (k : nat) (rest : bytes) : list event :=
  match fuel with
  | O => []
  | S fuel' =>
      match fault_at fault k with
      | Some e => [EError e]
      | None =>
          match read highWaterMark rest with
          | ([], _) => [EEnd]
          | (chunk, tail) =>
              EData chunk :: read_loop fuel' highWaterMark fault (S k) tail
          end
      end
  end.

Definition ENOENT : error := "ENOENT: no such file or directory".

(** [fs.createReadStream(path, { highWaterMark })]: the events the
    stream will emit once it flows.  A path that does not exist fails
    at open. *)
Definition createReadStream (d : disk) (path : string) (highWaterMark : Z)
    : list event :=
  match d !! path with
  | None => [EError ENOENT]
  | Some f =>
      read_loop (S (length (contents f))) highWaterMark (read_fault f) 0
        (contents f)
  end.

(** The blocks carried by the ['data'] events of a stream, in order. *)
Definition chunks (evs : list event) : list bytes :=
  omap (fun ev => match ev with EData c => Some c | _ => None end) evs.

End Stream.

(** ** [bufferAppender] *)

Module Loader.
Import Stream.

(** A call received by the decoder's [mp4boxFile].  The array buffer
    handed to [appendBuffer] carries its [fileStart] property. *)
Inductive mp4box_call :=
| appendBuffer (fileStart : Z) (arrayBuffer : bytes)
| flush.

(** The variables the two handlers close over: the counter
    [bytesRead] and the [mp4boxFile] object, seen as the calls it has
    received.  [bytesRead] is a JavaScript number; it counts bytes of
    one file and stays far below 2^53, where the addition of numbers is
    exact, so it is a [Z]. *)
Record closure := Closure { bytesRead : Z; mp4boxFile : list mp4box_call }.

Inductive listener :=
| OnEnd (h : closure -> closure)
| OnData (h : bytes -> closure -> closure)
| OnError (h : error -> closure -> closure).

(** [stream.on(name, handler)] *)
Definition on (l : listener) (ls : list listener) : list listener := ls ++ [l].

Definition handles_error (l : listener) : bool :=
  match l with OnError _ => true | _ => false end.

Definition call (ev : event) (c : closure) (l : listener) : closure :=
  match ev, l with
  | EData chunk, OnData h => h chunk c
  | EEnd, OnEnd h => h c
  | EError e, OnError h => h e c
  | _, _ => c
  end.

(** [emit]: the listeners of the event run in registration order; an
    ['error'] event nobody listens to is thrown. *)
Definition emit (ls : list listener) (ev : event) (c : closure)
    : closure + error :=
  match ev with
  | EError e =>
      if existsb handles_error ls then inl (foldl (call ev) c ls) else inr e
  | _ => inl (foldl (call ev) c ls)
  end.

(** How the flowing stream leaves the loader: all events delivered, or
    an exception nobody caught, which ends the process on the spot. *)
Inductive outcome :=
| Drained (c : closure)
| Uncaught (e : error) (c : closure).

(** [stream.resume()] *)
Fixpoint resume (stream : list event) (ls : list listener) (c : closure)
    : outcome :=
  match stream with
  | [] => Drained c
  | ev :: stream' =>
      match emit ls ev c with
      | inl c' => resume stream' ls c'
      | inr e => Uncaught e c
      end
  end.

Definition on_end (c : closure) : closure :=
  {| bytesRead := bytesRead c; mp4boxFile := mp4boxFile c ++ [flush] |}.

Definition on_data (chunk : bytes) (c : closure) : closure :=
  let arrayBuffer := chunk in
  let fileStart := bytesRead c in
  {| bytesRead := bytesRead c + Z.of_nat (length chunk);
     mp4boxFile := mp4boxFile c ++ [appendBuffer fileStart arrayBuffer] |}.

Definition listeners : list listener :=
  on (OnData on_data) (on (OnEnd on_end) []).

Definition bufferAppender (d : disk) (path : string)
    (mp4boxFile : list mp4box_call) : outcome :=
  let stream := createReadStream d path (4 * 1024 * 1024) in
  let bytesRead := 0 in
  resume stream listeners {| bytesRead := bytesRead; mp4boxFile := mp4boxFile |}.

Definition calls (o : outcome) : list mp4box_call :=
  match o with Drained c | Uncaught _ c => mp4boxFile c end.

(** The array buffers and the offsets of the [appendBuffer] calls. *)
Definition buffers (cs : list mp4box_call) : list bytes :=
  omap (fun c => match c with appendBuffer _ b => Some b | flush => None end) cs.

Definition offsets (cs : list mp4box_call) : list Z :=
  omap (fun c => match c with appendBuffer o _ => Some o | flush => None end) cs.

Definition is_flush (c : mp4box_call) : bool :=
  match c with flush => true | appendBuffer _ _ => false end.

Definition flushes (cs : list mp4box_call) : nat :=
  length (List.filter is_flush cs).

(** The calls a run of ['data'] events produces, the first block
    starting at [fileStart]. *)
Fixpoint append_calls (fileStart : Z) (blocks : list bytes) : list mp4box_call :=
  match blocks with
  | [] => []
  | b :: blocks' =>
      appendBuffer fileStart b
        :: append_calls (fileStart + Z.of_nat (length b)) blocks'
  end.

(** Where each block of a sequence starts when the blocks are laid end
    to end from offset 0: the total length of the blocks before it. *)
Definition block_starts (blocks : list bytes) : list Z :=
  (fun i => Z.of_nat (sum_list (length <$> take i blocks)))
    <$> seq 0 (length blocks).

End Loader.

(** ** The top level of the script *)

Module Script.

(** A promise, as the script sees it. *)
Inductive promise (A : Type) :=
| pending
| fulfilled (v : A)
| rejected (e : error).
Arguments pending {A}.
Arguments fulfilled {A} v.
Arguments rejected {A} e.

Section WithPayloads.
(** What [gpmfExtract] resolves with and what [goproTelemetry]
    resolves with: opaque to the script. *)
Context {payload telemetry : Type}.

(** The calls the script makes to the outside, and the two reports
    the runtime makes on its behalf. *)
Inductive action :=
| console_log (s : string)
| console_error (e : error)
| process_exit (code : Z)
| gpmfExtract (file : string)
| goproTelemetry (extracted : list payload) (preset : string)
| writeFileSync (path data : string)
| unhandledRejection (reason : error)
| uncaughtException (e : error).

(** What the event loop delivers after the synchronous part: the
    settlement of the [i]-th extraction promise, the settlement of
    the interpreter's promise, or an exception thrown out of an I/O
    callback (the loader's stream failing, [Loader.Uncaught]). *)
Inductive event :=
| extract_resolve (i : nat) (v : payload)
| extract_reject (i : nat) (e : error)
| telemetry_resolve (t : telemetry)
| telemetry_reject (e : error)
| io_throw (e : error).

(** The environment of one invocation. *)
Record runtime := Runtime {
  (** [require('path').basename(__filename)] *)
  module_basename : string;
  (** the exception [gpmfExtract(bufferAppender(file))] throws before
      it returns a promise, if any *)
  gpmfExtract_throws : string -> option error;
  (** [JSON.stringify(value, replacer, space)] *)
  JSON_stringify : telemetry -> option (list string) -> Z -> string;
  (** the exception [fs.writeFileSync(path, data)] throws, if any *)
  writeFileSync_throws : string -> string -> option error;
  (** whether the runtime ends the process when it reports an unhandled
      rejection (the default from Node 15 on; earlier versions warn) *)
  rejections_end_process : bool
}.

Record state := State {
  (** the process has ended in [process.exit] or in an uncaught exception *)
  exited : bool;
  geojsonOutFile : string;
  (** the array [promises] *)
  promises : list (promise payload);
  (** [Promise.all(promises)], once it has been called *)
  all : option (promise (list payload));
  (** [goproTelemetry(extracted, ...)], once it has been called *)
  interpreted : option (promise telemetry);
  trace : list action;
  (** the runtime has ended the process on an unhandled rejection *)
  killed : bool
}.

Definition log (a : action) (s : state) : state :=
  State (exited s) (geojsonOutFile s) (promises s) (all s) (interpreted s)
    (trace s ++ [a]) (killed s).

Definition set_promises (ps : list (promise payload)) (s : state) : state :=
  State (exited s) (geojsonOutFile s) ps (all s) (interpreted s) (trace s)
    (killed s).

Definition set_all (p : promise (list payload)) (s : state) : state :=
  State (exited s) (geojsonOutFile s) (promises s) (Some p) (interpreted s)
    (trace s) (killed s).

Definition set_interpreted (p : promise telemetry) (s : state) : state :=
  State (exited s) (geojsonOutFile s) (promises s) (all s) (Some p) (trace s)
    (killed s).

Definition terminate (s : state) : state :=
  State true (geojsonOutFile s) (promises s) (all s) (interpreted s) (trace s)
    (killed s).

Definition kill (s : state) : state :=
  State (exited s) (geojsonOutFile s) (promises s) (all s) (interpreted s)
    (trace s) true.

(** No turn of the event loop runs once the process has ended. *)
Definition ended (s : state) : bool := exited s || killed s.

Definition value (p : promise payload) : option payload :=
  match p with fulfilled v => Some v | _ => None end.

(** The values array of [Promise.all], complete only when every
    element is fulfilled. *)
Definition values (ps : list (promise payload)) : option (list payload) :=
  mapM value ps.

(** The fulfilment path [Promise.all(promises).then(extracted => ...)]:
    when the last element is fulfilled the aggregate fulfils with the
    values in array order and the callback calls the interpreter. *)
Definition join (s : state) : state :=
  match all s, values (promises s) with
  | Some pending, Some extracted =>
      log (goproTelemetry extracted "geojson")
        (set_interpreted pending (set_all (fulfilled extracted) s))
  | _, _ => s
  end.

(** The [for] loop of the [try] block. *)
Fixpoint start_extractions (R : runtime) (files : list string) (s : state)
    : state + error * state :=
  match files with
  | [] => inl s
  | file :: files' =>
      let s' := log (gpmfExtract file) s in
      match gpmfExtract_throws R file with
      | Some err => inr (err, s')
      | None =>
          start_extractions R files'
            (set_promises (promises s' ++ [pending]) s')
      end
  end.

Definition usage (R : runtime) : string :=
  "Usage: " +:+ module_basename R
    +:+ " <geojson_out_file> <video_file_name> <video_file_name>...".

(** The synchronous run of the script on [process.argv]. *)
Definition main (R : runtime) (argv : list string) : state :=
  if Z.of_nat (length argv) <? 4 then
    terminate (log (process_exit 1) (log (console_log (usage R))
      (State false "" [] None None [] false)))
  else
    let geojsonOutFile := default "" (argv !! 2%nat) in
    let files := drop 3 argv in
    match start_extractions R files
            (State false geojsonOutFile [] None None [] false) with
    | inl s => join (set_all pending s)
    | inr (err, s) => log (console_error err) s
    end.

(** The runtime reports a rejection nobody handles and, from Node 15
    on, ends the process. *)
Definition report (R : runtime) (e : error) (s : state) : state :=
  let s' := log (unhandledRejection e) s in
  if rejections_end_process R then kill s' else s'.

(** One turn of the event loop.  A settlement that comes for a promise
    already settled, or for an index the array does not have, changes
    nothing.  A rejection nobody handles is reported by the runtime: the
    rejection of the promise [then] derives from the aggregate or from
    the interpreter's promise, and the exception [fs.writeFileSync]
    throws inside the last callback.  An exception out of an I/O
    callback ends the process. *)
Definition step (R : runtime) (s : state) (ev : event) : state :=
  if ended s then s else
  match ev with
  | extract_resolve i v =>
      match promises s !! i with
      | Some pending => join (set_promises (<[i := fulfilled v]> (promises s)) s)
      | _ => s
      end
  | extract_reject i e =>
      match promises s !! i with
      | Some pending =>
          let s' := set_promises (<[i := rejected e]> (promises s)) s in
          match all s' with
          | Some pending => report R e (set_all (rejected e) s')
          | Some _ => s'
          | None => report R e s'
          end
      | _ => s
      end
  | telemetry_resolve t =>
      match interpreted s with
      | Some pending =>
          let data := JSON_stringify R t None 2 in
          let s' := log (writeFileSync (geojsonOutFile s) data)
                      (set_interpreted (fulfilled t) s) in
          match writeFileSync_throws R (geojsonOutFile s) data with
          | Some e => report R e s'
          | None => s'
          end
      | _ => s
      end
  | telemetry_reject e =>
      match interpreted s with
      | Some pending => report R e (set_interpreted (rejected e) s)
      | _ => s
      end
  | io_throw e => terminate (log (uncaughtException e) s)
  end.

Definition run (R : runtime) (argv : list string) (schedule : list event)
    : state :=
  foldl (step R) (main R argv) schedule.

(** What a loader's run contributes to the schedule: the exception, if
    its stream threw one. *)
Definition thrown (o : Loader.outcome) : list event :=
  match o with
  | Loader.Uncaught e _ => [io_throw e]
  | Loader.Drained _ => []
  end.

(** Projections of a trace. *)
Definition extractions (tr : list action) : list string :=
  omap (fun a => match a with gpmfExtract f => Some f | _ => None end) tr.

Definition interpretations (tr : list action) : list (list payload * string) :=
  omap (fun a => match a with goproTelemetry ex p => Some (ex, p) | _ => None end) tr.

Definition writes (tr : list action) : list (string * string) :=
  omap (fun a => match a with writeFileSync p d => Some (p, d) | _ => None end) tr.

Definition caught (tr : list action) : list error :=
  omap (fun a => match a with console_error e => Some e | _ => None end) tr.

(** How an event settles the [i]-th extraction promise, if it does,
    and the first event of a schedule that does. *)
Definition settlement_of (i : nat) (ev : event) : option (promise payload) :=
  match ev with
  | extract_resolve j v => if Nat.eqb j i then Some (fulfilled v) else None
  | extract_reject j e => if Nat.eqb j i then Some (rejected e) else None
  | _ => None
  end.

Definition first_settlement (schedule : list event) (i : nat)
    : option (promise payload) :=
  head (omap (settlement_of i) schedule).

(** A promise is in the state its first settlement in the schedule
    put it in, whatever came later; while the process runs, a pending
    promise has seen no settlement yet. *)
Definition agrees (schedule : list event) (s : state) (i : nat) : Prop :=
  match promises s !! i with
  | Some pending => ended s = false -> first_settlement schedule i = None
  | Some p => first_settlement schedule i = Some p
  | None => True
  end.

(** What holds of every state the script can be in, by the stage the
    [Promise.all] aggregate has reached. *)
Definition started (argv : list string) (s : state) : Prop :=
  geojsonOutFile s = default "" (argv !! 2%nat)
  /\ extractions (trace s) = drop 3 argv
  /\ length (promises s) = length (drop 3 argv)
  /\ caught (trace s) = [].

Definition inv (R : runtime) (argv : list string) (s : state) : Prop :=
  match all s with
  | None =>
      interpreted s = None
      /\ interpretations (trace s) = [] /\ writes (trace s) = []
      /\ Forall (fun e => exists f, f ∈ drop 3 argv /\ gpmfExtract_throws R f = Some e)
           (caught (trace s))
  | Some pending =>
      started argv s /\ interpreted s = None
      /\ values (promises s) = None
      /\ Forall (fun p => forall e, p <> rejected e) (promises s)
      /\ interpretations (trace s) = [] /\ writes (trace s) = []
  | Some (rejected _) =>
      started argv s /\ interpreted s = None
      /\ interpretations (trace s) = [] /\ writes (trace s) = []
  | Some (fulfilled extracted) =>
      started argv s
      /\ values (promises s) = Some extracted
      /\ interpretations (trace s) = [(extracted, "geojson")]
      /\ match interpreted s with
         | None => False
         | Some (fulfilled t) =>
             writes (trace s) =
               [(default "" (argv !! 2%nat), JSON_stringify R t None 2)]
         | Some _ => writes (trace s) = []
         end
  end.

(** The files the script has written whole: the calls to
    [fs.writeFileSync] that returned.  What a call that throws leaves
    at its path is not modelled. *)
Definition returned (R : runtime) (w : string * string) : bool :=
  match writeFileSync_throws R w.1 w.2 with None => true | Some _ => false end.

Definition written (R : runtime) (tr : list action) : list (string * string) :=
  List.filter (returned R) (writes tr).







(** The rejections the runtime reported. *)
Definition reported (tr : list action) : list error :=
  omap (fun a => match a with unhandledRejection e => Some e | _ => None end) tr.

(** The two actions of the argument check. *)
Definition is_usage_exit (a : action) : bool :=
  match a with console_log _ | process_exit _ => true | _ => false end.

(** The trace of a process that has called [Promise.all] and is still
    running, read off the stage the two promises are in. *)
Definition stage_trace (R : runtime) (argv : list string) (s : state)
    : list action :=
  (gpmfExtract <$> drop 3 argv) ++
  match all s with
  | Some (rejected e) => [unhandledRejection e]
  | Some (fulfilled extracted) =>
      goproTelemetry extracted "geojson" ::
      match interpreted s with
      | Some (fulfilled t) =>
          writeFileSync (default "" (argv !! 2%nat)) (JSON_stringify R t None 2)
          :: match writeFileSync_throws R (default "" (argv !! 2%nat))
                     (JSON_stringify R t None 2) with
             | Some e => [unhandledRejection e]
             | None => []
             end
      | Some (rejected e) => [unhandledRejection e]
      | _ => []
      end
  | _ => []
  end.

Definition stage_ok (R : runtime) (argv : list string) (s : state) : Prop :=
  (exited s = false -> is_Some (all s) -> trace s = stage_trace R argv s)
  /\ (forall e, all s = Some (rejected e) ->
        exists i, promises s !! i = Some (rejected e)).

End WithPayloads.
Arguments action : clear implicits.
Arguments event : clear implicits.
Arguments runtime : clear implicits.
Arguments state : clear implicits.

End Script.

(** ** Sample inputs

    A one-block clip on a card, an environment in which nothing throws and
    [JSON.stringify] is the identity on strings, a command line with two
    chunks of one recording, and one that is too short. *)

Module Sample.
Import Stream Script.

Definition clip : bytes := [x00; x00; x00; x18; x66; x74; x79; x70].

Definition card : disk := {[ "GX010001.MP4" := File clip None ]}.

Definition node : runtime string :=
  Runtime "extractGPS.js" (fun _ => None) (fun t _ _ => t) (fun _ _ => None) false.

(** [gpmfExtract] throws on the second chunk before returning a promise. *)
Definition node_throwing : runtime string :=
  Runtime "extractGPS.js"
    (fun f => if String.eqb f "GX020001.MP4" then Some "TypeError" else None)
    (fun t _ _ => t) (fun _ _ => None) false.

Definition argv : list string :=
  ["node"; "extractGPS.js"; "0001.geojson"; "GX010001.MP4"; "GX020001.MP4"].


(** Both chunks decode, the second one first; the interpreter answers. *)
Definition all_good : list (event string string) :=
  [extract_resolve 1 "gpmf-2"; extract_resolve 0 "gpmf-1";
   telemetry_resolve "{track}"].

(** The first chunk decodes, the second is rejected by the decoder. *)
Definition one_bad : list (event string string) :=
  [extract_resolve 0 "gpmf-1"; extract_reject 1 "moov not found"].

(** The same environment under a runtime that ends the process on an
    unhandled rejection. *)
Definition node15 : runtime string :=
  Runtime "extractGPS.js" (fun _ => None) (fun t _ _ => t) (fun _ _ => None) true.

(** The output directory does not exist: every write throws. *)
Definition node_nodir : runtime string :=
  Runtime "extractGPS.js" (fun _ => None) (fun t _ _ => t)
    (fun _ _ => Some "ENOENT: no such file or directory, open") false.



(** Both chunks decode but the interpreter rejects. *)
Definition no_track : list (event string string) :=
  [extract_resolve 0 "gpmf-1"; extract_resolve 1 "gpmf-2";
   telemetry_reject "no GPS stream"].

(** Both chunks are rejected, the second one first. *)
Definition both_bad : list (event string string) :=
  [extract_reject 1 "moov not found"; extract_reject 0 "truncated"].

End Sample.

(** * Facts about the read stream *)

Section StreamFacts.
Import Stream.

Lemma read_take_drop (n : Z) (rest : bytes) :
  read n rest = (take (Z.to_nat n) rest, drop (Z.to_nat n) rest).
Proof.
  revert n. induction rest as [|b rest IH]; intros n; simpl.
  - by rewrite take_nil, drop_nil.
  - destruct (Z.leb_spec n 0) as [Hn|Hn].
    + by replace (Z.to_nat n) with 0%nat by lia.
    + rewrite IH. by replace (Z.to_nat n) with (S (Z.to_nat (n - 1))) by lia.
Qed.

(** One turn of the loop on a file that reads well. *)
Lemma read_loop_nil fuel hwm k :
  read_loop (S fuel) hwm None k [] = [EEnd].
Proof. reflexivity. Qed.

Lemma read_loop_cons fuel hwm k (rest : bytes) :
  0 < hwm -> rest <> [] ->
  read_loop (S fuel) hwm None k rest =
    EData (take (Z.to_nat hwm) rest)
      :: read_loop fuel hwm None (S k) (drop (Z.to_nat hwm) rest).
Proof.
  intros Hh Hr. cbn [read_loop fault_at]. rewrite read_take_drop.
  destruct rest as [|b rest]; [done|].
  replace (Z.to_nat hwm) with (S (Z.to_nat (hwm - 1))) by lia. reflexivity.
Qed.

(** With enough fuel the loop of a readable file runs to ['end'], and
    the blocks it delivers cut the file into pieces of [hwm] bytes,
    the last one possibly shorter. *)
Lemma read_loop_healthy hwm :
  0 < hwm -> forall fuel k (rest : bytes),
  (length rest < fuel)%nat ->
  exists bl : list bytes,
    read_loop fuel hwm None k rest = (EData <$> bl) ++ [EEnd]
    /\ concat bl = rest
    /\ Forall (fun b : bytes => (0 < length b)%nat /\ Z.of_nat (length b) <= hwm) bl
    /\ Forall (fun b : bytes => Z.of_nat (length b) = hwm) (removelast bl).
Proof.
  intros Hh. induction fuel as [|fuel IH]; intros k rest Hlen; [lia|].
  destruct (decide (rest = [])) as [->|Hne].
  - exists []. by rewrite read_loop_nil.
  - rewrite read_loop_cons by done.
    assert (Hpos : (0 < length rest)%nat) by (destruct rest; simpl; [done|lia]).
    destruct (IH (S k) (drop (Z.to_nat hwm) rest)) as (bl & Hev & Hcat & Hsz & Hfull).
    { rewrite length_drop. lia. }
    exists (take (Z.to_nat hwm) rest :: bl). rewrite Hev. split; [done|].
    split; [simpl; by rewrite Hcat, take_drop|].
    split.
    + constructor; [|done]. rewrite length_take. lia.
    + destruct bl as [|b' bl]; [constructor|].
      change (removelast (?x :: b' :: bl)) with (x :: removelast (b' :: bl)).
      constructor; [|done].
      apply Forall_cons in Hsz as [[Hb' _] _].
      assert (0 < length (drop (Z.to_nat hwm) rest))%nat as Hd.
      { rewrite <- Hcat. simpl. rewrite length_app. lia. }
      rewrite length_drop in Hd. rewrite length_take. lia.
Qed.

(** A fault planted at read [j] cuts the healthy stream there. *)
Lemma read_loop_fault hwm j e :
  forall fuel k (rest : bytes), (k <= j)%nat ->
  read_loop fuel hwm (Some (j, e)) k rest =
    let evs := read_loop fuel hwm None k rest in
    if decide (j - k < length evs)%nat then take (j - k) evs ++ [EError e]
    else evs.
Proof.
  induction fuel as [|fuel IH]; intros k rest Hk; [done|].
  cbn [read_loop fault_at].
  destruct (Nat.eqb_spec j k) as [->|Hjk].
  - replace (k - k)%nat with 0%nat by lia.
    destruct (read hwm rest) as [[|b chunk] tail]; reflexivity.
  - destruct (read hwm rest) as [[|b chunk] tail].
    + cbn zeta. rewrite decide_False by (simpl; lia). done.
    + rewrite IH by lia. cbn zeta.
      replace (j - k)%nat with (S (j - S k)) by lia. simpl length.
      destruct (decide (j - S k < length _)%nat) as [Hlt|Hge].
      * rewrite decide_True by lia. reflexivity.
      * rewrite decide_False by lia. reflexivity.
Qed.

End StreamFacts.

(** * Facts about the loader *)

Section LoaderFacts.
Import Stream Loader.

Lemma emit_data chunk c : emit listeners (EData chunk) c = inl (on_data chunk c).
Proof. reflexivity. Qed.

Lemma emit_end c : emit listeners EEnd c = inl (on_end c).
Proof. reflexivity. Qed.

(** Nothing listens to ['error']: the event is thrown. *)
Lemma emit_error e c : emit listeners (EError e) c = inr e.
Proof. reflexivity. Qed.

Lemma resume_error e evs c :
  resume (EError e :: evs) listeners c = Uncaught e c.
Proof. reflexivity. Qed.

Lemma resume_blocks (bl : list bytes) evs c :
  resume ((EData <$> bl) ++ evs) listeners c =
    resume evs listeners
      (Closure (bytesRead c + Z.of_nat (length (concat bl)))
               (mp4boxFile c ++ append_calls (bytesRead c) bl)).
Proof.
  revert c. induction bl as [|b bl IH]; intros c.
  - simpl. rewrite Z.add_0_r, app_nil_r. by destruct c.
  - cbn [fmap list_fmap app resume]. rewrite emit_data.
    change (list_fmap _ _ EData bl) with (EData <$> bl). rewrite IH.
    f_equal. cbn [on_data bytesRead mp4boxFile concat append_calls].
    rewrite length_app, <- app_assoc. f_equal. lia.
Qed.

Lemma buffers_append_calls off bl : buffers (append_calls off bl) = bl.
Proof.
  revert off. induction bl as [|b bl IH]; intros off; [done|].
  cbn. f_equal. apply IH.
Qed.

Lemma flushes_append_calls off bl : flushes (append_calls off bl) = 0%nat.
Proof.
  revert off. induction bl as [|b bl IH]; intros off; [done|]. apply IH.
Qed.

Lemma offsets_append_calls off bl :
  offsets (append_calls off bl) = (fun o => off + o) <$> block_starts bl.
Proof.
  unfold block_starts. revert off. induction bl as [|b bl IH]; intros off; [done|].
  cbn [append_calls offsets omap list_omap length seq fmap list_fmap].
  change (list_omap _ _ ?f ?l) with (omap f l). fold (offsets (append_calls (off + Z.of_nat (length b)) bl)).
  rewrite IH. f_equal; [simpl; lia|].
  rewrite <- fmap_S_seq.
  change (list_fmap _ _ ?f ?l) with (f <$> l).
  rewrite <- !list_fmap_compose. apply list_fmap_ext.
  intros i x _. simpl.
  change (list_fmap _ _ ?f ?l) with (f <$> l). lia.
Qed.

Lemma offsets_lower_bound off bl :
  Forall (fun o => off <= o) (offsets (append_calls off bl)).
Proof.
  revert off. induction bl as [|b bl IH]; intros off; [constructor|].
  cbn. constructor; [lia|].
  eapply Forall_impl; [apply IH|]. simpl. intros; lia.
Qed.

Lemma offsets_increasing off bl :
  Forall (fun b : bytes => (0 < length b)%nat) bl ->
  StronglySorted Z.lt (offsets (append_calls off bl)).
Proof.
  revert off. induction bl as [|b bl IH]; intros off Hne; [constructor|].
  apply Forall_cons in Hne as [Hb Hne]. cbn. constructor; [by apply IH|].
  eapply Forall_impl; [apply offsets_lower_bound|]. simpl. intros; lia.
Qed.

Lemma take_append_calls j off bl :
  take j (append_calls off bl) = append_calls off (take j bl).
Proof.
  revert j off. induction bl as [|b bl IH]; intros [|j] off; try done.
  simpl. f_equal. apply IH.
Qed.

Lemma length_append_calls off bl : length (append_calls off bl) = length bl.
Proof.
  revert off. induction bl as [|b bl IH]; intros off; [done|].
  simpl. f_equal. apply IH.
Qed.

Lemma buffers_app cs cs' : buffers (cs ++ cs') = buffers cs ++ buffers cs'.
Proof. apply omap_app. Qed.

Lemma offsets_app cs cs' : offsets (cs ++ cs') = offsets cs ++ offsets cs'.
Proof. apply omap_app. Qed.

Lemma flushes_app cs cs' : flushes (cs ++ cs') = (flushes cs + flushes cs')%nat.
Proof. unfold flushes. by rewrite List.filter_app, length_app. Qed.

(** The loader on a file that reads to its end, for any block size. *)
Lemma loader_healthy hwm d path content :
  0 < hwm ->
  exists bl : list bytes,
    createReadStream (<[path := File content None]> d) path hwm
      = (EData <$> bl) ++ [EEnd]
    /\ resume (createReadStream (<[path := File content None]> d) path hwm)
         listeners (Closure 0 [])
       = Drained (Closure (Z.of_nat (length content)) (append_calls 0 bl ++ [flush]))
    /\ concat bl = content
    /\ Forall (fun b : bytes => (0 < length b)%nat /\ Z.of_nat (length b) <= hwm) bl
    /\ Forall (fun b : bytes => Z.of_nat (length b) = hwm) (removelast bl).
Proof.
  intros Hh. unfold createReadStream. rewrite lookup_insert_eq.
  cbn [contents read_fault].
  destruct (read_loop_healthy hwm Hh (S (length content)) 0 content)
    as (bl & Hev & Hcat & Hsz & Hfull); [lia|].
  exists bl. rewrite Hev. repeat split; try done.
  rewrite resume_blocks. simpl. by rewrite Hcat.
Qed.

(** The loader on a file whose [j]-th read fails. *)
Lemma loader_faulty hwm d path content j e (bl : list bytes) :
  createReadStream (<[path := File content None]> d) path hwm
    = (EData <$> bl) ++ [EEnd] ->
  (j <= length bl)%nat ->
  resume (createReadStream (<[path := File content (Some (j, e))]> d) path hwm)
      listeners (Closure 0 [])
    = Uncaught e (Closure (Z.of_nat (length (concat (take j bl))))
                          (append_calls 0 (take j bl))).
Proof.
  unfold createReadStream. rewrite !lookup_insert_eq.
  cbn [contents read_fault]. intros Hev Hj. rewrite read_loop_fault by lia. cbn zeta. rewrite Hev.
  rewrite decide_True by (rewrite length_app, length_fmap; simpl; lia).
  rewrite Nat.sub_0_r, take_app_le by (rewrite length_fmap; lia).
  rewrite <- fmap_take, resume_blocks. reflexivity.
Qed.

Lemma loader_fault_late hwm d path content j e (bl : list bytes) :
  createReadStream (<[path := File content None]> d) path hwm
    = (EData <$> bl) ++ [EEnd] ->
  (length bl < j)%nat ->
  createReadStream (<[path := File content (Some (j, e))]> d) path hwm
    = (EData <$> bl) ++ [EEnd].
Proof.
  unfold createReadStream. rewrite !lookup_insert_eq.
  cbn [contents read_fault]. intros Hev Hj. rewrite read_loop_fault by lia.
  cbn zeta. rewrite Hev.
  by rewrite decide_False by (rewrite length_app, length_fmap; simpl; lia).
Qed.

Lemma Forall_removelast_take {A} (P : A -> Prop) j (l : list A) :
  Forall P (removelast l) -> Forall P (removelast (take j l)).
Proof.
  revert j. induction l as [|x l IH]; intros [|j] H; try constructor.
  cbn [take]. destruct l as [|y l]; [destruct j; constructor|].
  change (removelast (x :: y :: l)) with (x :: removelast (y :: l)) in H.
  apply Forall_cons in H as [Hx H].
  specialize (IH j H). destruct j as [|j]; [constructor|].
  cbn [take] in *.
  change (removelast (x :: y :: ?t)) with (x :: removelast (y :: t)).
  by constructor.
Qed.

(** Whatever the file at [path] is (readable, failing, or missing),
    the calls the loader makes are block appends laid end to end from
    offset 0, followed by at most one [flush]. *)
Lemma loader_calls hwm d path :
  0 < hwm ->
  exists (bl : list bytes) (tail : list mp4box_call),
    calls (resume (createReadStream d path hwm) listeners (Closure 0 []))
      = append_calls 0 bl ++ tail
    /\ (tail = [] \/ tail = [flush])
    /\ Forall (fun b : bytes => (0 < length b)%nat /\ Z.of_nat (length b) <= hwm) bl
    /\ Forall (fun b : bytes => Z.of_nat (length b) = hwm) (removelast bl).
Proof.
  intros Hh. destruct (d !! path) as [[content fault]|] eqn:Hd.
  - rewrite <- (insert_id d path _ Hd).
    destruct (loader_healthy hwm d path content Hh)
      as (bl & Hev & Hrun & Hcat & Hsz & Hfull).
    destruct fault as [[j e]|].
    + destruct (le_lt_dec j (length bl)) as [Hj|Hj].
      * rewrite (loader_faulty hwm d path content j e bl Hev Hj).
        exists (take j bl), []. rewrite app_nil_r. repeat split; auto.
        -- by apply Forall_take.
        -- by apply Forall_removelast_take.
      * rewrite (loader_fault_late hwm d path content j e bl Hev Hj).
        rewrite <- Hev, Hrun. exists bl, [flush]. repeat split; auto.
    + rewrite Hrun. exists bl, [flush]. repeat split; auto.
  - unfold createReadStream. rewrite Hd. exists [], []. repeat split; auto.
Qed.

End LoaderFacts.

(** * The loader's contract *)

Section LoaderContract.
Import Stream Loader.

Lemma bufferAppender_unfold d path :
  bufferAppender d path [] =
    resume (createReadStream d path (4 * 1024 * 1024)) listeners (Closure 0 []).
Proof. reflexivity. Qed.

Lemma highWaterMark_pos : 0 < 4 * 1024 * 1024.
Proof. lia. Qed.

(** The run on a file that reads to its end, at the script's block size. *)
Lemma bufferAppender_healthy (d : disk) (path : string) (content : bytes) :
  exists bl : list bytes,
    createReadStream (<[path := File content None]> d) path (4 * 1024 * 1024)
      = (EData <$> bl) ++ [EEnd]
    /\ bufferAppender (<[path := File content None]> d) path []
       = Drained (Closure (Z.of_nat (length content)) (append_calls 0 bl ++ [flush]))
    /\ buffers (append_calls 0 bl ++ [flush]) = bl
    /\ concat bl = content.
Proof.
  rewrite bufferAppender_unfold.
  destruct (loader_healthy _ d path content highWaterMark_pos)
    as (bl & Hev & Hrun & Hcat & _ & _).
  exists bl. repeat split; try done.
  rewrite buffers_app, buffers_append_calls. apply app_nil_r.
Qed.

(** C2. For a file that reads to its end, the array buffers handed to
    [appendBuffer], concatenated in call order, are the file's bytes;
    the stream is drained, and [flush] is called exactly once, as the
    last call, after every [appendBuffer]. *)
Theorem bufferAppender_reconstructs_file (d : disk) (path : string) (content : bytes) :
  let o := bufferAppender (<[path := File content None]> d) path [] in
  concat (buffers (calls o)) = content
  /\ flushes (calls o) = 1%nat
  /\ calls o = append_calls 0 (buffers (calls o)) ++ [flush]
  /\ o = Drained (Closure (Z.of_nat (length content)) (calls o)).
Proof.
  cbv zeta.
  destruct (bufferAppender_healthy d path content) as (bl & _ & -> & Hb & Hcat).
  cbn [calls mp4boxFile]. rewrite Hb, flushes_app, flushes_append_calls.
  done.
Qed.

(** C4. When the [j]-th read of the stream fails, and that read is one
    the stream gets to issue, the error leaves the loader as an
    exception; the calls made are the first [j] block appends of the
    healthy run and nothing more, and [flush] is not among them. *)
Theorem bufferAppender_read_failure (d : disk) (path : string) (content : bytes)
    (j : nat) (e : error) :
  let healthy := calls (bufferAppender (<[path := File content None]> d) path []) in
  (j <= length (buffers healthy))%nat ->
  exists c,
    bufferAppender (<[path := File content (Some (j, e))]> d) path [] = Uncaught e c
    /\ mp4boxFile c = take j healthy
    /\ buffers (mp4boxFile c) = take j (buffers healthy)
    /\ flushes (mp4boxFile c) = 0%nat.
Proof.
  cbv zeta.
  destruct (bufferAppender_healthy d path content) as (bl & Hev & -> & Hb & _).
  cbn [calls mp4boxFile]. rewrite Hb. intros Hj.
  rewrite bufferAppender_unfold.
  rewrite (loader_faulty _ d path content j e bl Hev Hj).
  eexists; split; [reflexivity|]. cbn [mp4boxFile].
  rewrite take_app_le by (rewrite length_append_calls; lia).
  rewrite take_append_calls, buffers_append_calls, flushes_append_calls. done.
Qed.

End LoaderContract.

(** * Facts about the top level *)

Section ScriptFacts.
Import Script.
Context {payload telemetry : Type}.
Implicit Types (s : state payload telemetry) (R : runtime telemetry)
  (ev : event payload telemetry) (sched : list (event payload telemetry))
  (ps : list (promise payload)).

Lemma run_snoc R argv sched ev :
  run R argv (sched ++ [ev]) = step R (run R argv sched) ev.
Proof. unfold run. by rewrite foldl_app. Qed.


Lemma values_Some_fulfilled ps ex :
  values ps = Some ex ->
  length ex = length ps /\ Forall (fun p => exists v, p = fulfilled v) ps.
Proof.
  unfold values. rewrite mapM_Some. intros HF. split.
  - symmetry. by eapply Forall2_length.
  - induction HF as [|p v ps ex Hp _ IH]; constructor; [|done].
    destruct p; simpl in Hp; try done. eauto.
Qed.

Lemma values_replicate_pending n : n <> 0%nat ->
  values (replicate n (@pending payload)) = None.
Proof. destruct n; [done|]. intros _. reflexivity. Qed.

(** Projections of the trace the [for] loop leaves. *)
Lemma extractions_calls (fs : list string) :
  extractions (payload:=payload) (gpmfExtract <$> fs) = fs.
Proof. induction fs as [|f fs IH]; [done|]. cbn. f_equal. apply IH. Qed.

Lemma interpretations_calls (fs : list string) :
  interpretations (payload:=payload) (gpmfExtract <$> fs) = [].
Proof. induction fs as [|f fs IH]; [done|]. apply IH. Qed.

Lemma writes_calls (fs : list string) :
  writes (payload:=payload) (gpmfExtract <$> fs) = [].
Proof. induction fs as [|f fs IH]; [done|]. apply IH. Qed.

Lemma caught_calls (fs : list string) :
  caught (payload:=payload) (gpmfExtract <$> fs) = [].
Proof. induction fs as [|f fs IH]; [done|]. apply IH. Qed.

(** The loop either goes through every file, leaving one pending
    promise per file, or stops at the first call that throws. *)
Lemma start_extractions_spec R (files : list string) s :
  match start_extractions R files s with
  | inl s' =>
      Forall (fun f => gpmfExtract_throws R f = None) files
      /\ s' = State (exited s) (geojsonOutFile s)
               (promises s ++ replicate (length files) pending)
               (all s) (interpreted s) (trace s ++ (gpmfExtract <$> files))
               (killed s)
  | inr (err, s') =>
      exists pre f post,
        files = pre ++ f :: post
        /\ gpmfExtract_throws R f = Some err
        /\ Forall (fun f => gpmfExtract_throws R f = None) pre
        /\ s' = State (exited s) (geojsonOutFile s)
                 (promises s ++ replicate (length pre) pending)
                 (all s) (interpreted s)
                 (trace s ++ (gpmfExtract <$> pre ++ [f])) (killed s)
  end.
Proof.
  revert s. induction files as [|file files IH]; intros s.
  - simpl. split; [constructor|]. destruct s; cbn. by rewrite !app_nil_r.
  - cbn [start_extractions].
    destruct (gpmfExtract_throws R file) as [err|] eqn:Hthrow.
    + exists [], file, files. repeat split; try done.
      unfold log. cbn. by rewrite app_nil_r.
    + specialize (IH (set_promises (promises (log (gpmfExtract file) s) ++ [pending])
                      (log (gpmfExtract file) s))).
      destruct (start_extractions R files _) as [s'|[err s']].
      * destruct IH as [Hall ->]. split; [by constructor|].
        cbn. by rewrite <- !app_assoc.
      * destruct IH as (pre & f & post & -> & Hf & Hpre & ->).
        exists (file :: pre), f, post. repeat split; try done; [by constructor|].
        cbn. by rewrite <- !app_assoc.
Qed.

Lemma main_inv R argv : inv R argv (main (payload:=payload) R argv).
Proof.
  unfold main. destruct (Z.ltb_spec (Z.of_nat (length argv)) 4) as [Hlt|Hge].
  - cbn. repeat split; constructor.
  - pose proof (start_extractions_spec R (drop 3 argv)
      (State false (default "" (argv !! 2%nat)) [] None None [] false)) as Hspec.
    assert (Hfiles : drop 3 argv <> []).
    { intros Hnil. apply (f_equal length) in Hnil.
      rewrite length_drop in Hnil. simpl in Hnil. lia. }
    destruct (start_extractions R (drop 3 argv) _) as [s|[err s]].
    + destruct Hspec as [_ ->].
      cbn [exited geojsonOutFile promises all interpreted trace app].
      assert (Hv : values (replicate (length (drop 3 argv)) (@pending payload)) = None).
      { apply values_replicate_pending. by destruct (drop 3 argv). }
      unfold join, inv, set_all.
      cbn [exited geojsonOutFile promises all interpreted trace]. rewrite Hv.
      unfold started.
      cbn [exited geojsonOutFile promises all interpreted trace].
      rewrite extractions_calls, caught_calls, interpretations_calls,
        writes_calls, length_replicate.
      repeat split; try done. by apply Forall_replicate.
    + destruct Hspec as (pre & f & post & Hfs & Hf & Hpre & ->).
      unfold inv. cbn.
      unfold interpretations, writes, caught.
      rewrite !omap_app.
      fold (interpretations (payload:=payload) (gpmfExtract <$> pre ++ [f])).
      fold (writes (payload:=payload) (gpmfExtract <$> pre ++ [f])).
      fold (caught (payload:=payload) (gpmfExtract <$> pre ++ [f])).
      rewrite interpretations_calls, writes_calls, caught_calls. cbn.
      repeat split; try done. constructor; [|constructor].
      exists f. split; [|done]. rewrite Hfs. set_solver.
Qed.

Lemma extractions_snoc (tr : list (action payload)) a :
  extractions (tr ++ [a]) = extractions tr ++ extractions [a].
Proof. apply omap_app. Qed.

Lemma interpretations_snoc (tr : list (action payload)) a :
  interpretations (tr ++ [a]) = interpretations tr ++ interpretations [a].
Proof. apply omap_app. Qed.

Lemma writes_snoc (tr : list (action payload)) a :
  writes (tr ++ [a]) = writes tr ++ writes [a].
Proof. apply omap_app. Qed.

Lemma caught_snoc (tr : list (action payload)) a :
  caught (tr ++ [a]) = caught tr ++ caught [a].
Proof. apply omap_app. Qed.

Lemma values_Some_not_pending ps ex i :
  values ps = Some ex -> ps !! i = Some pending -> False.
Proof.
  intros Hv Hi. apply values_Some_fulfilled in Hv as [_ HF].
  rewrite Forall_lookup in HF. by destruct (HF i _ Hi).
Qed.

Ltac trace_simpl :=
  rewrite ?extractions_snoc, ?interpretations_snoc, ?writes_snoc, ?caught_snoc;
  cbn [extractions interpretations writes caught omap list_omap app];
  rewrite ?app_nil_r.

Ltac inv_unfold :=
  unfold inv, started, join, log, set_promises, set_all, set_interpreted,
    terminate, kill in *;
  cbn [exited geojsonOutFile promises all interpreted trace killed] in *.

Lemma inv_kill R argv s : inv R argv s -> inv R argv (kill s).
Proof. destruct s. by inv_unfold. Qed.

Lemma inv_report R argv e s :
  inv R argv (log (unhandledRejection e) s) -> inv R argv (report R e s).
Proof.
  intros H. unfold report. destruct (rejections_end_process R); [|done].
  by apply inv_kill.
Qed.

(** Every turn of the event loop keeps the invariant. *)
Lemma step_inv R argv s ev : inv R argv s -> inv R argv (step R s ev).
Proof.
  intros H. destruct s as [ex out ps al ip tr kd]. unfold step, ended.
  cbn [exited killed]. destruct ex; [done|]. destruct kd; [done|]. cbn [orb].
  destruct ev as [i v|i e|t|e|e]; cbn [promises interpreted all geojsonOutFile].
  - destruct (ps !! i) as [[| |]|] eqn:Hi; try done.
    destruct al as [[|ex|e]|]; inv_unfold.
    + destruct H as ((Hout & Hext & Hlen & Hc) & Hip & Hv & Hnr & Hint & Hw).
      destruct (values (<[i:=fulfilled v]> ps)) as [ex|] eqn:Hv';
        cbn [exited geojsonOutFile promises all interpreted trace killed].
      * rewrite Hv'. trace_simpl. rewrite length_insert, Hint, Hw.
        by subst.
      * rewrite Hv', length_insert. repeat split; try done.
        by apply Forall_insert.
    + destruct H as (_ & Hv & _). destruct (values_Some_not_pending _ _ _ Hv Hi).
    + by rewrite length_insert.
    + done.
  - destruct (ps !! i) as [[| |]|] eqn:Hi; try done.
    cbn zeta. cbn [all set_promises].
    destruct al as [[|ex|e']|]; try apply inv_report; inv_unfold.
    + destruct H as ((Hout & Hext & Hlen & Hc) & Hip & Hv & Hnr & Hint & Hw).
      trace_simpl. by rewrite length_insert.
    + destruct H as (_ & Hv & _). destruct (values_Some_not_pending _ _ _ Hv Hi).
    + by rewrite length_insert.
    + trace_simpl. done.
  - destruct ip as [[| |]|]; try done. cbn zeta.
    destruct (writeFileSync_throws R out _) as [e|]; try apply inv_report;
      (destruct al as [[|ex|e']|]; inv_unfold;
        try (by destruct H as (? & ? & ?));
       destruct H as ((Hout & Hext & Hlen & Hc) & Hv & Hint & Hw);
       trace_simpl; rewrite Hw; by subst).
  - destruct ip as [[| |]|]; try done. apply inv_report.
    destruct al as [[|ex|e']|]; inv_unfold; try (by destruct H as (? & ? & ?)).
    destruct H as ((Hout & Hext & Hlen & Hc) & Hv & Hint & Hw).
    trace_simpl. by subst.
  - destruct al as [[|ex|e']|]; inv_unfold; trace_simpl; done.
Qed.

(** The invariant holds throughout every run. *)
Lemma run_inv R argv sched : inv R argv (run R argv sched).
Proof.
  induction sched as [|ev sched IH] using rev_ind.
  - apply main_inv.
  - rewrite run_snoc. by apply step_inv.
Qed.

Lemma step_ended R s ev : ended s = true -> step R s ev = s.
Proof. intros H. unfold step. by rewrite H. Qed.

Lemma step_exited R s ev : exited s = true -> step R s ev = s.
Proof. intros H. apply step_ended. unfold ended. by rewrite H. Qed.

Lemma foldl_step_ended R s sched :
  ended s = true -> foldl (step R) s sched = s.
Proof.
  intros H. induction sched as [|ev sched IH]; [done|].
  simpl. by rewrite step_ended.
Qed.

Lemma foldl_step_exited R s sched :
  exited s = true -> foldl (step R) s sched = s.
Proof.
  intros H. induction sched as [|ev sched IH]; [done|].
  simpl. by rewrite step_exited.
Qed.

Lemma promises_join s : promises (join s) = promises s.
Proof. unfold join. by destruct (all s) as [[| |]|], (values (promises s)). Qed.

Lemma exited_join s : exited (join s) = exited s.
Proof. unfold join. by destruct (all s) as [[| |]|], (values (promises s)). Qed.

Lemma ended_join s : ended (join s) = ended s.
Proof. unfold join. by destruct (all s) as [[| |]|], (values (promises s)). Qed.

(** What a report leaves as it was. *)
Lemma promises_report R e s : promises (report R e s) = promises s.
Proof. unfold report. by destruct (rejections_end_process R). Qed.

Lemma all_report R e s : all (report R e s) = all s.
Proof. unfold report. by destruct (rejections_end_process R). Qed.


Lemma exited_report R e s : exited (report R e s) = exited s.
Proof. unfold report. by destruct (rejections_end_process R). Qed.

Lemma trace_report R e s :
  trace (report R e s) = trace s ++ [unhandledRejection e].
Proof. unfold report. by destruct (rejections_end_process R). Qed.

(** The synchronous part leaves every promise it created pending. *)
Lemma main_promises R argv :
  Forall (fun p => p = pending) (promises (main (payload:=payload) R argv)).
Proof.
  unfold main. destruct (Z.of_nat (length argv) <? 4); [constructor|].
  pose proof (start_extractions_spec R (drop 3 argv)
    (State false (default "" (argv !! 2%nat)) [] None None [] false)) as Hspec.
  destruct (start_extractions R (drop 3 argv) _) as [s|[err s]].
  - destruct Hspec as [_ ->]. rewrite promises_join. cbn.
    by apply Forall_replicate.
  - destruct Hspec as (pre & f & post & _ & _ & _ & ->). cbn.
    by apply Forall_replicate.
Qed.

Lemma first_settlement_snoc sched ev i :
  first_settlement (sched ++ [ev]) i =
    match first_settlement sched i with
    | Some p => Some p
    | None => settlement_of i ev
    end.
Proof.
  unfold first_settlement. rewrite omap_app.
  destruct (omap (settlement_of i) sched) as [|p l]; [|done].
  simpl. by destruct (settlement_of i ev).
Qed.

Lemma agrees_keep sched ev s s' i :
  promises s' !! i = promises s !! i ->
  (ended s' = false -> ended s = false) ->
  (promises s !! i = Some pending -> ended s = false -> settlement_of i ev = None) ->
  agrees sched s i -> agrees (sched ++ [ev]) s' i.
Proof.
  unfold agrees. intros -> Hex Hev H. rewrite first_settlement_snoc.
  destruct (promises s !! i) as [[| |]|]; [|by rewrite H..|done].
  intros Hex'. rewrite (H (Hex Hex')). auto.
Qed.

Lemma agrees_settle sched ev s s' i p :
  ended s = false -> promises s !! i = Some pending ->
  settlement_of i ev = Some p -> p <> pending ->
  promises s' !! i = Some p ->
  agrees sched s i -> agrees (sched ++ [ev]) s' i.
Proof.
  unfold agrees. intros Hex Hi Hev Hp -> H. rewrite first_settlement_snoc.
  rewrite Hi in H. rewrite (H Hex), Hev. by destruct p.
Qed.

Lemma step_agrees R sched ev s i :
  agrees sched s i -> agrees (sched ++ [ev]) (step R s ev) i.
Proof.
  intros H. unfold step. destruct (ended s) eqn:Hex.
  { apply (agrees_keep sched ev s s i); try done. congruence. }
  destruct ev as [j v|j e|t|e|e].
  - destruct (promises s !! j) as [p|] eqn:Hj.
    2:{ apply (agrees_keep sched _ s s i); try done. intros Hi _. simpl.
        destruct (Nat.eqb_spec j i); [congruence|done]. }
    assert (p = pending \/ p <> pending) as [->|Hp]
      by (destruct p; [by left|by right..]).
    2:{ assert (agrees (sched ++ [extract_resolve j v]) s i).
        { apply (agrees_keep sched _ s s i); try done. intros Hi _. simpl.
          destruct (Nat.eqb_spec j i); [congruence|done]. }
        by destruct p. }
    destruct (decide (j = i)) as [->|Hne].
    + apply (agrees_settle sched _ s _ i (fulfilled v)); try done.
      * simpl. by rewrite Nat.eqb_refl.
      * rewrite promises_join. cbn.
        apply list_lookup_insert_eq. by eapply lookup_lt_Some.
    + apply (agrees_keep sched _ s _ i); try done.
      * rewrite promises_join. cbn. by apply list_lookup_insert_ne.
      * intros _ _. simpl. by rewrite (proj2 (Nat.eqb_neq j i)).
  - destruct (promises s !! j) as [p|] eqn:Hj.
    2:{ apply (agrees_keep sched _ s s i); try done. intros Hi _. simpl.
        destruct (Nat.eqb_spec j i); [congruence|done]. }
    assert (p = pending \/ p <> pending) as [->|Hp]
      by (destruct p; [by left|by right..]).
    2:{ assert (agrees (sched ++ [extract_reject j e]) s i).
        { apply (agrees_keep sched _ s s i); try done. intros Hi _. simpl.
          destruct (Nat.eqb_spec j i); [congruence|done]. }
        by destruct p. }
    cbn zeta. cbn [all set_promises].
    destruct (decide (j = i)) as [->|Hne].
    + apply (agrees_settle sched _ s _ i (rejected e)); try done.
      * simpl. by rewrite Nat.eqb_refl.
      * destruct (all s) as [[| |]|]; rewrite ?promises_report; cbn;
          apply list_lookup_insert_eq; by eapply lookup_lt_Some.
    + apply (agrees_keep sched _ s _ i); try done.
      * destruct (all s) as [[| |]|]; rewrite ?promises_report; cbn;
          by apply list_lookup_insert_ne.
      * intros _ _. simpl. by rewrite (proj2 (Nat.eqb_neq j i)).
  - apply (agrees_keep sched _ s _ i); try done.
    destruct (interpreted s) as [[| |]|]; try done. cbn zeta.
    destruct (writeFileSync_throws R _ _); by rewrite ?promises_report.
  - apply (agrees_keep sched _ s _ i); try done.
    destruct (interpreted s) as [[| |]|]; by rewrite ?promises_report.
  - by apply (agrees_keep sched _ s _ i).
Qed.

(** Once [Promise.all] has been called it stays called. *)
Lemma step_all_is_Some R s ev : is_Some (all s) -> is_Some (all (step R s ev)).
Proof.
  destruct s as [ex out ps al ip tr kd]. cbn [all]. intros [p ->].
  unfold step, ended. cbn [exited killed].
  destruct ex; [by eexists|]. destruct kd; [by eexists|]. cbn [orb].
  destruct ev as [j v|j e|t|e|e]; cbn [promises interpreted all].
  - destruct (ps !! j) as [[| |]|]; try by eexists.
    unfold join. cbn [all set_promises promises].
    destruct p; try by eexists.
    destruct (values _); by eexists.
  - destruct (ps !! j) as [[| |]|]; try by eexists.
    cbn zeta. cbn [all set_promises].
    destruct p; rewrite ?all_report; by eexists.
  - destruct ip as [[| |]|]; try by eexists. cbn zeta.
    destruct (writeFileSync_throws R _ _); rewrite ?all_report; by eexists.
  - destruct ip as [[| |]|]; rewrite ?all_report; by eexists.
  - by eexists.
Qed.

Lemma main_all_is_Some R argv :
  (4 <= length argv)%nat ->
  Forall (fun f => gpmfExtract_throws R f = None) (drop 3 argv) ->
  is_Some (all (main (payload:=payload) R argv)).
Proof.
  intros Hlen Hok. unfold main.
  destruct (Z.ltb_spec (Z.of_nat (length argv)) 4); [lia|].
  pose proof (start_extractions_spec R (drop 3 argv)
    (State false (default "" (argv !! 2%nat)) [] None None [] false)) as Hspec.
  destruct (start_extractions R (drop 3 argv) _) as [s|[err s]].
  - destruct Hspec as [_ ->]. unfold join. cbn.
    match goal with |- context [mapM ?f ?l] => destruct (mapM f l) end; by eexists.
  - destruct Hspec as (pre & f & post & Hfs & Hf & _). rewrite Hfs in Hok.
    apply Forall_app in Hok as [_ Hok]. apply Forall_cons in Hok as [Hok _].
    congruence.
Qed.

Lemma run_all_is_Some R argv sched :
  (4 <= length argv)%nat ->
  Forall (fun f => gpmfExtract_throws R f = None) (drop 3 argv) ->
  is_Some (all (run R argv sched)).
Proof.
  intros Hlen Hok. induction sched as [|ev sched IH] using rev_ind.
  - by apply main_all_is_Some.
  - rewrite run_snoc. by apply step_all_is_Some.
Qed.

Lemma run_first_settlement R argv sched i :
  agrees sched (run R argv sched) i.
Proof.
  induction sched as [|ev sched IH] using rev_ind.
  - unfold agrees, run. simpl.
    destruct (promises (main R argv) !! i) as [p|] eqn:Hp; [|done].
    pose proof (main_promises R argv) as HF. rewrite Forall_lookup in HF.
    by rewrite (HF i p Hp).
  - rewrite run_snoc. by apply step_agrees.
Qed.


End ScriptFacts.

(** * The script's contract *)

Section ScriptContract.
Import Script.
Context {payload telemetry : Type}.
Implicit Types (s : state payload telemetry) (R : runtime telemetry)
  (ev : event payload telemetry) (sched : list (event payload telemetry))
  (ps : list (promise payload)).


(** C5. At every point of every run, if the output step has run (the
    interpreter has been called or the file written), then one promise
    exists per input file, every one of them is fulfilled, and for every
    file a fulfilment is among the events delivered so far: the step
    waits for the whole set. *)
Theorem output_waits_for_every_extraction R argv sched :
  interpretations (trace (run R argv sched)) <> []
    \/ writes (trace (run R argv sched)) <> [] ->
  length (promises (run R argv sched)) = length (drop 3 argv)
  /\ Forall (fun p => exists v, p = fulfilled v) (promises (run R argv sched))
  /\ Forall (fun i => exists v, first_settlement sched i = Some (fulfilled v))
       (seq 0 (length (drop 3 argv))).
Proof.
  intros Hout.
  assert (Hall : length (promises (run R argv sched)) = length (drop 3 argv)
    /\ Forall (fun p => exists v, p = fulfilled v) (promises (run R argv sched))).
  { pose proof (run_inv R argv sched) as H. unfold inv in H.
    destruct (all (run R argv sched)) as [[|ex|e']|].
    - destruct H as (_ & _ & _ & _ & Hi & Hw). by destruct Hout.
    - destruct H as ((_ & _ & Hlen & _) & Hv & _).
      split; [done|]. by apply values_Some_fulfilled in Hv as [_ ?].
    - destruct H as (_ & _ & Hi & Hw). by destruct Hout.
    - destruct H as (_ & Hi & Hw & _). by destruct Hout. }
  destruct Hall as [Hlen HF]. split; [done|]. split; [done|].
  apply Forall_seq. intros i [_ Hi]. rewrite <- Hlen in Hi.
  destruct (lookup_lt_is_Some_2 _ _ Hi) as [p Hp].
  rewrite Forall_lookup in HF. destruct (HF i p Hp) as [v ->].
  exists v. pose proof (run_first_settlement R argv sched i) as Ha.
  unfold agrees in Ha. by rewrite Hp in Ha.
Qed.

(** C9. When the interpreter's promise is fulfilled with a track, the
    interpreter was called once, with the payloads of all the files and
    the preset ["geojson"], and the one write puts
    [JSON.stringify(telemetry, null, 2)] in the output file. *)
Theorem success_interprets_geojson_and_writes_pretty R argv sched t :
  interpreted (run R argv sched) = Some (fulfilled t) ->
  exists extracted,
    values (promises (run R argv sched)) = Some extracted
    /\ length extracted = length (drop 3 argv)
    /\ interpretations (trace (run R argv sched)) = [(extracted, "geojson")]
    /\ writes (trace (run R argv sched)) =
         [(default "" (argv !! 2%nat), JSON_stringify R t None 2)].
Proof.
  intros Ht. pose proof (run_inv R argv sched) as H. unfold inv in H.
  rewrite Ht in H.
  destruct (all (run R argv sched)) as [[|ex|e']|];
    try (by destruct H as (? & ? & ?)); try (by destruct H as (? & ?)).
  destruct H as ((_ & _ & Hlen & _) & Hv & Hi & Hw).
  exists ex. repeat split; try done.
  apply values_Some_fulfilled in Hv as [-> _]. done.
Qed.

End ScriptContract.

(** * The contract on the sample inputs *)

Section Samples.
Import Stream Loader Script.

(** A stream cut at three bytes: the clip arrives as blocks of 3, 3 and
    2 bytes at offsets 0, 3 and 6, then [flush]. *)
Example clip_in_blocks_of_three :
  resume (createReadStream Sample.card "GX010001.MP4" 3) listeners (Closure 0 [])
  = Drained (Closure 8
      [appendBuffer 0 [x00; x00; x00]; appendBuffer 3 [x18; x66; x74];
       appendBuffer 6 [x79; x70]; flush]).
Proof. reflexivity. Qed.

Example clip_at_script_block_size :
  bufferAppender Sample.card "GX010001.MP4" []
  = Drained (Closure 8 [appendBuffer 0 Sample.clip; flush]).
Proof. reflexivity. Qed.

Example missing_file_throws :
  bufferAppender Sample.card "GX020001.MP4" [] = Uncaught ENOENT (Closure 0 []).
Proof. reflexivity. Qed.

Example all_good_trace :
  trace (run Sample.node Sample.argv Sample.all_good)
  = [gpmfExtract "GX010001.MP4"; gpmfExtract "GX020001.MP4";
     goproTelemetry ["gpmf-1"; "gpmf-2"] "geojson";
     writeFileSync "0001.geojson" "{track}"].
Proof. reflexivity. Qed.

Example one_bad_trace :
  trace (run Sample.node Sample.argv Sample.one_bad)
  = [gpmfExtract "GX010001.MP4"; gpmfExtract "GX020001.MP4";
     unhandledRejection "moov not found"].
Proof. reflexivity. Qed.

Example synchronous_throw_is_caught :
  trace (run Sample.node_throwing Sample.argv Sample.all_good)
  = [gpmfExtract "GX010001.MP4"; gpmfExtract "GX020001.MP4";
     console_error "TypeError"].
Proof. reflexivity. Qed.

(** The second chunk is not on the card: its stream throws at open and
    the process ends, whatever the first chunk's decoder had to say. *)
Example missing_chunk_ends_the_process :
  trace (run Sample.node Sample.argv
           (thrown (bufferAppender Sample.card "GX020001.MP4" [])
              ++ [extract_resolve 0 "gpmf-1"]))
  = [gpmfExtract "GX010001.MP4"; gpmfExtract "GX020001.MP4";
     uncaughtException ENOENT].
Proof. reflexivity. Qed.

Example stream_failure_ends_the_process :
  trace (run Sample.node Sample.argv
           [extract_resolve 1 "gpmf-2"; io_throw "EIO"; extract_resolve 0 "gpmf-1";
            telemetry_resolve "{track}"])
  = [gpmfExtract "GX010001.MP4"; gpmfExtract "GX020001.MP4";
     uncaughtException "EIO"].
Proof. reflexivity. Qed.

(** The claim C1 as the specification words it fails on the sample: the
    second chunk is rejected, yet nothing is caught and nothing is
    produced for the first. *)
Lemma failure_isolation_counterexample :
  ~ (forall (R : runtime string) (argv : list string)
            (sched : list (event string string)) (i : nat) (e : error),
       promises (run R argv sched) !! i = Some (rejected e) ->
       e ∈ caught (trace (run R argv sched))
       /\ forall j v, promises (run R argv sched) !! j = Some (fulfilled v) ->
            interpretations (trace (run R argv sched)) <> []).
Proof.
  intros H.
  destruct (H Sample.node Sample.argv Sample.one_bad 1%nat "moov not found" eq_refl)
    as [_ Hint].
  by apply (Hint 0%nat "gpmf-1").
Qed.

Lemma bufferAppender_read_failure_witness :
  (1 <= length (buffers (calls (bufferAppender
      (<["GX010001.MP4" := File Sample.clip None]> Sample.card) "GX010001.MP4" []))))%nat
  /\ exists c,
    bufferAppender
      (<["GX010001.MP4" := File Sample.clip (Some (1%nat, "EIO"))]> Sample.card)
      "GX010001.MP4" [] = Uncaught "EIO" c
    /\ mp4boxFile c = take 1 (calls (bufferAppender
         (<["GX010001.MP4" := File Sample.clip None]> Sample.card) "GX010001.MP4" []))
    /\ buffers (mp4boxFile c) = take 1 (buffers (calls (bufferAppender
         (<["GX010001.MP4" := File Sample.clip None]> Sample.card) "GX010001.MP4" [])))
    /\ flushes (mp4boxFile c) = 0%nat.
Proof.
  split; [vm_compute; lia|].
  apply (bufferAppender_read_failure Sample.card "GX010001.MP4" Sample.clip 1%nat "EIO").
  vm_compute; lia.
Defined.


Lemma output_waits_for_every_extraction_witness :
  (interpretations (trace (run Sample.node Sample.argv Sample.all_good)) <> []
     \/ writes (trace (run Sample.node Sample.argv Sample.all_good)) <> [])
  /\ length (promises (run Sample.node Sample.argv Sample.all_good))
     = length (drop 3 Sample.argv)
  /\ Forall (fun p => exists v, p = fulfilled v)
       (promises (run Sample.node Sample.argv Sample.all_good))
  /\ Forall (fun i => exists v, first_settlement Sample.all_good i = Some (fulfilled v))
       (seq 0 (length (drop 3 Sample.argv))).
Proof.
  split; [right; discriminate|].
  apply (output_waits_for_every_extraction Sample.node Sample.argv Sample.all_good).
  right; discriminate.
Defined.

Lemma success_interprets_geojson_and_writes_pretty_witness :
  interpreted (run Sample.node Sample.argv Sample.all_good) = Some (fulfilled "{track}")
  /\ exists extracted,
    values (promises (run Sample.node Sample.argv Sample.all_good)) = Some extracted
    /\ length extracted = length (drop 3 Sample.argv)
    /\ interpretations (trace (run Sample.node Sample.argv Sample.all_good))
       = [(extracted, "geojson")]
    /\ writes (trace (run Sample.node Sample.argv Sample.all_good))
       = [(default "" (Sample.argv !! 2%nat),
           JSON_stringify Sample.node "{track}" None 2)].
Proof.
  split; [reflexivity|].
  apply (success_interprets_geojson_and_writes_pretty
           Sample.node Sample.argv Sample.all_good "{track}").
  reflexivity.
Defined.

End Samples.


(** * More about the loader *)

Section LoaderEdges.
Import Stream Loader.

Lemma length_concat_full hwm (xs : list bytes) :
  Forall (fun b : bytes => Z.of_nat (length b) = hwm) xs ->
  Z.of_nat (length (concat xs)) = Z.of_nat (length xs) * hwm.
Proof.
  induction 1 as [|b xs Hb _ IH]; [done|].
  cbn [concat length]. rewrite length_app. lia.
Qed.

(** The number of blocks a file is cut into. *)
Lemma block_count hwm (bl : list bytes) (content : bytes) :
  0 < hwm -> concat bl = content ->
  Forall (fun b : bytes => (0 < length b)%nat /\ Z.of_nat (length b) <= hwm) bl ->
  Forall (fun b : bytes => Z.of_nat (length b) = hwm) (removelast bl) ->
  Z.of_nat (length bl) = Z.div (Z.of_nat (length content) + hwm - 1) hwm.
Proof.
  intros Hh <- Hsz Hfull.
  destruct (decide (bl = [])) as [->|Hne];
    [|destruct (exists_last Hne) as (init & l & ->)].
  - simpl. symmetry. apply Z.div_small. lia.
  - rewrite removelast_last in Hfull.
    apply Forall_app in Hsz as [_ Hl]. apply Forall_cons in Hl as [[Hl1 Hl2] _].
    rewrite concat_app, !length_app. cbn [concat length]. rewrite app_nil_r.
    pose proof (length_concat_full hwm init Hfull) as Hc.
    apply (Z.div_unique_pos _ hwm _ (Z.of_nat (length l) - 1)); [lia|].
    rewrite !Nat2Z.inj_add. rewrite Hc. cbn. lia.
Qed.

(** Every run of the loader, by the way it ends. *)
Lemma loader_outcome hwm d path :
  0 < hwm ->
  exists (bl : list bytes) (b : Z),
    resume (createReadStream d path hwm) listeners (Closure 0 [])
      = Drained (Closure b (append_calls 0 bl ++ [flush]))
    \/ exists e,
      resume (createReadStream d path hwm) listeners (Closure 0 [])
        = Uncaught e (Closure b (append_calls 0 bl)).
Proof.
  intros Hh. destruct (d !! path) as [[content fault]|] eqn:Hd.
  - rewrite <- (insert_id d path _ Hd).
    destruct (loader_healthy hwm d path content Hh)
      as (bl & Hev & Hrun & _ & _ & _).
    destruct fault as [[j e]|].
    + destruct (le_lt_dec j (length bl)) as [Hj|Hj].
      * rewrite (loader_faulty hwm d path content j e bl Hev Hj).
        eexists _, _. right. by eexists.
      * rewrite (loader_fault_late hwm d path content j e bl Hev Hj).
        rewrite <- Hev, Hrun. eexists _, _. by left.
    + rewrite Hrun. eexists _, _. by left.
  - unfold createReadStream. rewrite Hd. exists [], 0. right. by eexists.
Qed.

(** X1. A file that is not empty and holds at most [4 * 1024 * 1024]
    bytes reaches the decoder in one piece: a single [appendBuffer] at
    offset 0 carrying the whole file, then [flush]. *)
Theorem small_file_single_block (d : disk) (path : string) (content : bytes) :
  content <> [] ->
  Z.of_nat (length content) <= 4 * 1024 * 1024 ->
  bufferAppender (<[path := File content None]> d) path []
    = Drained (Closure (Z.of_nat (length content)) [appendBuffer 0 content; flush]).
Proof.
  intros Hne Hlen. rewrite bufferAppender_unfold.
  destruct (loader_healthy _ d path content highWaterMark_pos)
    as (bl & _ & -> & Hcat & Hsz & Hfull).
  pose proof (block_count _ bl content highWaterMark_pos Hcat Hsz Hfull) as Hn.
  assert (Hpos : (0 < length content)%nat) by (destruct content; simpl; [done|lia]).
  rewrite <- (Z.div_unique_pos _ (4 * 1024 * 1024) 1 (Z.of_nat (length content) - 1))
    in Hn by lia.
  destruct bl as [|b [|b' bl]]; simpl in Hn; try lia.
  simpl in Hcat. rewrite app_nil_r in Hcat. by subst.
Qed.

(** X2. The number of [appendBuffer] calls for a file that reads to its
    end is its size divided by [4 * 1024 * 1024], rounded up; none for an
    empty file. *)
Theorem appendBuffer_call_count (d : disk) (path : string) (content : bytes) :
  Z.of_nat (length (buffers (calls
      (bufferAppender (<[path := File content None]> d) path []))))
  = Z.div (Z.of_nat (length content) + 4 * 1024 * 1024 - 1) (4 * 1024 * 1024).
Proof.
  rewrite bufferAppender_unfold.
  destruct (loader_healthy _ d path content highWaterMark_pos)
    as (bl & _ & -> & Hcat & Hsz & Hfull).
  cbn [calls mp4boxFile]. rewrite buffers_app, buffers_append_calls.
  change (buffers [flush]) with (@nil bytes). rewrite app_nil_r.
  by apply block_count.
Qed.

(** X3. Whatever is at the path, [flush] is called exactly when the
    stream ends without an error, and then it is the last call; a run
    that ends in an exception has not called [flush]. *)
Theorem flush_exactly_when_drained (d : disk) (path : string) :
  match bufferAppender d path [] with
  | Drained c => flushes (mp4boxFile c) = 1%nat /\ last (mp4boxFile c) = Some flush
  | Uncaught _ c => flushes (mp4boxFile c) = 0%nat
  end.
Proof.
  rewrite bufferAppender_unfold.
  destruct (loader_outcome _ d path highWaterMark_pos) as (bl & b & [-> | [e ->]]);
    cbn [mp4boxFile].
  - rewrite flushes_app, flushes_append_calls, last_snoc. done.
  - apply flushes_append_calls.
Qed.

(** X10. Whether the file reads to its end or fails on the way, the
    bytes handed to the decoder, put end to end, are a prefix of the
    file: nothing is delivered twice, out of place or made up. *)
Theorem delivered_bytes_are_a_prefix (d : disk) (path : string)
    (content : bytes) (fault : option (nat * error)) :
  concat (buffers (calls (bufferAppender (<[path := File content fault]> d) path [])))
    `prefix_of` content.
Proof.
  rewrite bufferAppender_unfold.
  destruct (loader_healthy _ d path content highWaterMark_pos)
    as (bl & Hev & Hrun & Hcat & _ & _).
  destruct fault as [[j e]|].
  - destruct (le_lt_dec j (length bl)) as [Hj|Hj].
    + rewrite (loader_faulty _ d path content j e bl Hev Hj).
      cbn [calls mp4boxFile]. rewrite buffers_append_calls.
      exists (concat (drop j bl)). by rewrite <- concat_app, take_drop.
    + rewrite (loader_fault_late _ d path content j e bl Hev Hj).
      rewrite <- Hev, Hrun. cbn [calls mp4boxFile].
      rewrite buffers_app, buffers_append_calls.
      change (buffers [flush]) with (@nil bytes). by rewrite app_nil_r, Hcat.
  - rewrite Hrun. cbn [calls mp4boxFile].
    rewrite buffers_app, buffers_append_calls.
    change (buffers [flush]) with (@nil bytes). by rewrite app_nil_r, Hcat.
Qed.

End LoaderEdges.

(** * More about the top level *)

Section ScriptStages.
Import Script.
Context {payload telemetry : Type}.
Implicit Types (s : state payload telemetry) (R : runtime telemetry)
  (ev : event payload telemetry) (sched : list (event payload telemetry))
  (ps : list (promise payload)).

(** The synchronous part, case by case. *)
Lemma main_short R argv :
  (length argv < 4)%nat ->
  main (payload:=payload) R argv
    = State true "" [] None None [console_log (usage R); process_exit 1] false.
Proof.
  intros Hlen. unfold main.
  destruct (Z.ltb_spec (Z.of_nat (length argv)) 4); [done|lia].
Qed.

Lemma main_ok R argv :
  (4 <= length argv)%nat ->
  Forall (fun f => gpmfExtract_throws R f = None) (drop 3 argv) ->
  main (payload:=payload) R argv
    = State false (default "" (argv !! 2%nat))
        (replicate (length (drop 3 argv)) pending) (Some pending) None
        (gpmfExtract <$> drop 3 argv) false.
Proof.
  intros Hlen Hok. unfold main.
  destruct (Z.ltb_spec (Z.of_nat (length argv)) 4); [lia|].
  pose proof (start_extractions_spec (payload:=payload) R (drop 3 argv)
    (State false (default "" (argv !! 2%nat)) [] None None [] false)) as Hspec.
  destruct (start_extractions R (drop 3 argv) _) as [s|[err s]].
  - destruct Hspec as [_ ->].
    cbn [exited geojsonOutFile promises all interpreted trace app].
    unfold join, set_all.
    cbn [exited geojsonOutFile promises all interpreted trace].
    rewrite values_replicate_pending; [done|].
    intros Hn. apply (f_equal Z.of_nat) in Hn. rewrite length_drop in Hn. lia.
  - destruct Hspec as (pre & f & post & Hfs & Hf & _). rewrite Hfs in Hok.
    apply Forall_app in Hok as [_ Hok]. apply Forall_cons in Hok as [Hok _].
    congruence.
Qed.

Lemma start_extractions_throw R (pre : list string) f post err s :
  Forall (fun f => gpmfExtract_throws R f = None) pre ->
  gpmfExtract_throws R f = Some err ->
  start_extractions R (pre ++ f :: post) s
    = inr (err, State (exited s) (geojsonOutFile s)
                  (promises s ++ replicate (length pre) pending)
                  (all s) (interpreted s)
                  (trace s ++ (gpmfExtract <$> pre ++ [f])) (killed s)).
Proof.
  intros Hpre Hf. revert s. induction Hpre as [|g pre Hg _ IH]; intros s.
  - cbn [app start_extractions]. rewrite Hf. unfold log. cbn.
    by rewrite app_nil_r.
  - cbn [app start_extractions]. rewrite Hg, IH. unfold log, set_promises. cbn.
    by rewrite <- !app_assoc.
Qed.

Lemma main_throw R argv (pre : list string) f post err :
  (4 <= length argv)%nat ->
  drop 3 argv = pre ++ f :: post ->
  Forall (fun f => gpmfExtract_throws R f = None) pre ->
  gpmfExtract_throws R f = Some err ->
  main (payload:=payload) R argv
    = State false (default "" (argv !! 2%nat))
        (replicate (length pre) pending) None None
        ((gpmfExtract <$> pre ++ [f]) ++ [console_error err]) false.
Proof.
  intros Hlen Hfs Hpre Hf. unfold main.
  destruct (Z.ltb_spec (Z.of_nat (length argv)) 4); [lia|].
  rewrite Hfs, (start_extractions_throw R pre f post err _ Hpre Hf). done.
Qed.

(** What a turn of the event loop adds to the trace is never a call to
    [gpmfExtract], a [console] line or an exit. *)
Lemma step_trace R s ev :
  exists new : list (action payload),
    trace (step R s ev) = trace s ++ new
    /\ extractions new = [] /\ caught new = []
    /\ List.filter is_usage_exit new = [].
Proof.
  destruct s as [ex out ps al ip tr kd]. unfold step, ended.
  cbn [exited killed].
  destruct ex; [exists []; by rewrite app_nil_r|].
  destruct kd; [exists []; by rewrite app_nil_r|]. cbn [orb].
  destruct ev as [i v|i e|t|e|e]; cbn [promises interpreted all trace].
  - destruct (ps !! i) as [[| |]|]; try (exists []; by rewrite app_nil_r).
    unfold join, set_promises. cbn [all promises].
    destruct al as [[| |]|]; try (exists []; by rewrite app_nil_r).
    destruct (values _); [|exists []; by rewrite app_nil_r].
    by eexists [_].
  - destruct (ps !! i) as [[| |]|]; try (exists []; by rewrite app_nil_r).
    cbn zeta. cbn [all set_promises].
    destruct al as [[| |]|]; rewrite ?trace_report;
      try (exists []; by rewrite app_nil_r); by eexists [_].
  - destruct ip as [[| |]|]; try (exists []; by rewrite app_nil_r). cbn zeta.
    destruct (writeFileSync_throws R _ _); rewrite ?trace_report; cbn [trace log].
    + eexists [_; _]. by rewrite <- app_assoc.
    + by eexists [_].
  - destruct ip as [[| |]|]; rewrite ?trace_report;
      try (exists []; by rewrite app_nil_r). by eexists [_].
  - by eexists [_].
Qed.

Lemma step_length_promises R s ev :
  length (promises (step R s ev)) = length (promises s).
Proof.
  destruct s as [ex out ps al ip tr kd]. unfold step, ended.
  cbn [exited killed]. destruct ex; [done|]. destruct kd; [done|]. cbn [orb].
  destruct ev as [i v|i e|t|e|e]; cbn [promises interpreted all]; try done.
  - destruct (ps !! i) as [[| |]|]; try done.
    rewrite promises_join. cbn. apply length_insert.
  - destruct (ps !! i) as [[| |]|]; try done.
    cbn zeta. cbn [all set_promises].
    destruct al as [[| |]|]; rewrite ?promises_report; cbn; apply length_insert.
  - destruct ip as [[| |]|]; try done. cbn zeta.
    by destruct (writeFileSync_throws R _ _); rewrite ?promises_report.
  - by destruct ip as [[| |]|]; rewrite ?promises_report.
Qed.

Lemma step_all_None R s ev : all s = None -> all (step R s ev) = None.
Proof.
  destruct s as [ex out ps al ip tr kd]. cbn [all]. intros ->.
  unfold step, ended. cbn [exited killed].
  destruct ex; [done|]. destruct kd; [done|]. cbn [orb].
  destruct ev as [i v|i e|t|e|e]; cbn [promises interpreted all]; try done.
  - by destruct (ps !! i) as [[| |]|].
  - destruct (ps !! i) as [[| |]|]; try done. cbn zeta. cbn [all set_promises].
    by rewrite all_report.
  - destruct ip as [[| |]|]; try done. cbn zeta.
    by destruct (writeFileSync_throws R _ _); rewrite ?all_report.
  - by destruct ip as [[| |]|]; rewrite ?all_report.
Qed.

(** What the synchronous part decided stays decided. *)
Lemma run_frozen R argv sched :
  extractions (trace (run R argv sched)) = extractions (trace (main (payload:=payload) R argv))
  /\ caught (trace (run R argv sched)) = caught (trace (main (payload:=payload) R argv))
  /\ List.filter is_usage_exit (trace (run R argv sched))
     = List.filter is_usage_exit (trace (main (payload:=payload) R argv))
  /\ length (promises (run R argv sched)) = length (promises (main (payload:=payload) R argv))
  /\ (all (main (payload:=payload) R argv) = None -> all (run R argv sched) = None).
Proof.
  induction sched as [|ev sched IH] using rev_ind; [done|].
  rewrite run_snoc. destruct IH as (IH1 & IH2 & IH3 & IH4 & IH5).
  destruct (step_trace R (run R argv sched) ev) as (new & -> & H1 & H2 & H3).
  unfold extractions, caught in *. rewrite !omap_app, List.filter_app.
  rewrite H1, H2, H3, !app_nil_r, step_length_promises.
  repeat split; try done. intros Hn. by apply step_all_None, IH5.
Qed.

Lemma main_cases R argv :
  Forall (fun f => gpmfExtract_throws R f = None) (drop 3 argv)
  \/ all (main (payload:=payload) R argv) = None.
Proof.
  unfold main. destruct (Z.of_nat (length argv) <? 4); [by right|].
  pose proof (start_extractions_spec (payload:=payload) R (drop 3 argv)
    (State false (default "" (argv !! 2%nat)) [] None None [] false)) as Hspec.
  destruct (start_extractions R (drop 3 argv) _) as [s|[err s]].
  - left. by destruct Hspec.
  - right. by destruct Hspec as (pre & f & post & _ & _ & _ & ->).
Qed.

Lemma main_stage R argv : stage_ok R argv (main (payload:=payload) R argv).
Proof.
  destruct (le_lt_dec 4 (length argv)) as [Hlen|Hlen].
  - destruct (main_cases R argv) as [Hok|Hnone].
    + rewrite (main_ok R argv Hlen Hok). split; [|done].
      intros _ _. unfold stage_trace. cbn. by rewrite app_nil_r.
    + split; [intros _ [p Hp]|intros e He]; congruence.
  - rewrite (main_short R argv Hlen). split; [done|]. intros e He. done.
Qed.

Ltac stage_unfold :=
  unfold stage_ok, stage_trace, inv, started, join, log, set_promises, set_all,
    set_interpreted, terminate, kill in *;
  cbn [exited geojsonOutFile promises all interpreted trace killed] in *.

Lemma rejected_stays ps i (p : promise payload) e :
  ps !! i = Some pending ->
  (exists j, ps !! j = Some (rejected e)) ->
  exists j, <[i := p]> ps !! j = Some (rejected e).
Proof.
  intros Hi [j Hj]. exists j. rewrite list_lookup_insert_ne; [done|].
  intros ->. congruence.
Qed.

Lemma stage_kill R argv s : stage_ok R argv s -> stage_ok R argv (kill s).
Proof. destruct s. by stage_unfold. Qed.

Lemma stage_report R argv e s :
  stage_ok R argv (log (unhandledRejection e) s) -> stage_ok R argv (report R e s).
Proof.
  intros H. unfold report. destruct (rejections_end_process R); [|done].
  by apply stage_kill.
Qed.

(** Every turn of the event loop keeps the trace in step with the stage. *)
Lemma step_stage R argv s ev :
  inv R argv s -> stage_ok R argv s -> stage_ok R argv (step R s ev).
Proof.
  intros H [Htr Hrej]. destruct s as [ex out ps al ip tr kd].
  unfold step, ended. cbn [exited killed].
  destruct ex; [by split|]. destruct kd; [by split|]. cbn [orb].
  cbn [exited all trace promises] in Htr, Hrej.
  destruct ev as [i v|i e|t|e|e]; cbn [promises interpreted all geojsonOutFile].
  - destruct (ps !! i) as [[| |]|] eqn:Hi; try by split.
    destruct al as [[|ex|e]|]; stage_unfold.
    + destruct (values (<[i:=fulfilled v]> ps)) as [ex|] eqn:Hv';
        cbn [exited geojsonOutFile promises all interpreted trace killed].
      * split; [|done]. intros _ _. rewrite Htr by (done || by eexists).
        by rewrite <- app_assoc.
      * split; [|done]. intros _ _. by rewrite Htr by (done || by eexists).
    + destruct H as (_ & Hv & _). destruct (values_Some_not_pending _ _ _ Hv Hi).
    + split; [done|]. intros e' He'. by apply rejected_stays, Hrej.
    + split; [intros _ [? ?]|]; done.
  - destruct (ps !! i) as [[| |]|] eqn:Hi; try by split.
    cbn zeta. cbn [all set_promises].
    destruct al as [[|ex|e']|]; try apply stage_report; stage_unfold.
    + split.
      * intros _ _. rewrite Htr by (done || by eexists).
        by rewrite <- app_assoc.
      * intros e' [= <-]. exists i.
        apply list_lookup_insert_eq. by eapply lookup_lt_Some.
    + destruct H as (_ & Hv & _). destruct (values_Some_not_pending _ _ _ Hv Hi).
    + split; [done|]. intros e'' He''. by apply rejected_stays, Hrej.
    + split; [intros _ [? ?]|]; done.
  - destruct ip as [[| |]|]; try by split. cbn zeta.
    destruct al as [[|ex|e']|];
      try (unfold inv in H; cbn [all interpreted] in H;
           by destruct H as (? & ? & ?)).
    assert (Hout : out = default "" (argv !! 2%nat)).
    { unfold inv, started in H. cbn in H. by destruct H as ((? & _) & _). }
    subst out.
    destruct (writeFileSync_throws R _ _) as [e|] eqn:Hthrow;
      try apply stage_report; stage_unfold; rewrite Hthrow;
      (split; [|done]); intros _ _;
      rewrite Htr by (done || by eexists); by rewrite <- !app_assoc.
  - destruct ip as [[| |]|]; try by split. apply stage_report.
    destruct al as [[|ex|e']|]; stage_unfold; try (by destruct H as (? & ? & ?)).
    split; [|done]. intros _ _.
    rewrite Htr by (done || by eexists). by rewrite <- app_assoc.
  - stage_unfold. by split.
Qed.

Lemma run_stage R argv sched : stage_ok R argv (run R argv sched).
Proof.
  induction sched as [|ev sched IH] using rev_ind.
  - apply main_stage.
  - rewrite run_snoc. apply step_stage; [apply run_inv|done].
Qed.

Lemma throws_cases R (files : list string) :
  Forall (fun f => gpmfExtract_throws R f = None) files
  \/ exists pre f post err,
       files = pre ++ f :: post
       /\ Forall (fun f => gpmfExtract_throws R f = None) pre
       /\ gpmfExtract_throws R f = Some err.
Proof.
  induction files as [|f files IH]; [by left|].
  destruct (gpmfExtract_throws R f) as [err|] eqn:Hf.
  - right. by exists [], f, files, err.
  - destruct IH as [IH|(pre & g & post & err & -> & Hpre & Hg)].
    + left. by constructor.
    + right. exists (f :: pre), g, post, err. repeat split; try done.
      by constructor.
Qed.

Lemma reported_calls (fs : list string) :
  reported (payload:=payload) (gpmfExtract <$> fs) = [].
Proof. induction fs as [|f fs IH]; [done|]. apply IH. Qed.

Lemma usage_exit_calls (fs : list string) :
  List.filter is_usage_exit (gpmfExtract (payload:=payload) <$> fs) = [].
Proof. induction fs as [|f fs IH]; [done|]. apply IH. Qed.

(** X4. When a call to [gpmfExtract] throws, the loop stops there: the
    files after it are never passed to [gpmfExtract], the exception is
    logged once with [console.error], [Promise.all] is never called, and
    whatever the promises already created do later, the interpreter is
    not called and nothing is written. *)
Theorem synchronous_throw_stops_the_loop R argv sched
    (pre : list string) (f : string) (post : list string) (err : error) :
  (4 <= length argv)%nat ->
  drop 3 argv = pre ++ f :: post ->
  Forall (fun f => gpmfExtract_throws R f = None) pre ->
  gpmfExtract_throws R f = Some err ->
  extractions (trace (run R argv sched)) = pre ++ [f]
  /\ caught (trace (run R argv sched)) = [err]
  /\ length (promises (run R argv sched)) = length pre
  /\ all (run R argv sched) = None
  /\ interpretations (trace (run R argv sched)) = []
  /\ writes (trace (run R argv sched)) = [].
Proof.
  intros Hlen Hfs Hpre Hf.
  destruct (run_frozen R argv sched) as (-> & -> & _ & -> & Hnone).
  rewrite (main_throw R argv pre f post err Hlen Hfs Hpre Hf) in *.
  cbn [trace promises all] in *. unfold extractions, caught.
  rewrite !omap_app.
  fold (extractions (payload:=payload) (gpmfExtract <$> pre ++ [f])).
  fold (caught (payload:=payload) (gpmfExtract <$> pre ++ [f])).
  rewrite extractions_calls, caught_calls, length_replicate. cbn.
  rewrite app_nil_r. specialize (Hnone eq_refl).
  pose proof (run_inv R argv sched) as H. unfold inv in H. rewrite Hnone in H.
  by destruct H as (_ & -> & -> & _).
Qed.

(** X6. When the interpreter's promise is rejected, the rejection is
    reported by the runtime and that is all: the trace is the extraction
    calls, the one interpreter call and the report; no file is written. *)
Theorem interpreter_rejection_trace R argv sched e :
  exited (run R argv sched) = false ->
  interpreted (run R argv sched) = Some (rejected e) ->
  exists extracted,
    values (promises (run R argv sched)) = Some extracted
    /\ trace (run R argv sched) =
         (gpmfExtract <$> drop 3 argv)
         ++ [goproTelemetry extracted "geojson"; unhandledRejection e]
    /\ writes (trace (run R argv sched)) = [].
Proof.
  intros Hex Ht. pose proof (run_inv R argv sched) as H.
  destruct (run_stage R argv sched) as [Htr _]. unfold inv, stage_trace in *.
  rewrite Ht in *.
  destruct (all (run R argv sched)) as [[|ex|e']|];
    try (by destruct H as (? & ? & ?)); try (by destruct H as (? & ?)).
  destruct H as (_ & Hv & _ & Hw). exists ex. split; [done|]. split; [|done].
  apply Htr; [done|by eexists].
Qed.

(** X7. When no call to [gpmfExtract] throws and no exception has gone
    uncaught, however many extraction promises are rejected there is exactly one
    report, and its reason is one with which some file's promise was
    first settled; the trace is the extraction calls followed by that
    report. *)
Theorem rejections_give_one_report R argv sched i e0 :
  Forall (fun f => gpmfExtract_throws R f = None) (drop 3 argv) ->
  exited (run R argv sched) = false ->
  promises (run R argv sched) !! i = Some (rejected e0) ->
  exists e j,
    first_settlement sched j = Some (rejected e)
    /\ trace (run R argv sched)
       = (gpmfExtract <$> drop 3 argv) ++ [unhandledRejection e]
    /\ reported (trace (run R argv sched)) = [e].
Proof.
  intros Hok Hex Hi.
  destruct (le_lt_dec 4 (length argv)) as [Hlen|Hlen].
  2:{ unfold run in Hex. rewrite (main_short R argv Hlen) in Hex.
      by rewrite foldl_step_exited in Hex. }
  pose proof (run_all_is_Some R argv sched Hlen Hok) as Hall.
  pose proof (run_inv R argv sched) as H.
  destruct (run_stage R argv sched) as [Htr Hrej]. unfold inv, stage_trace in *.
  destruct (all (run R argv sched)) as [[|ex|e]|]; [| | |by destruct Hall].
  - destruct H as (_ & _ & _ & Hnr & _). rewrite Forall_lookup in Hnr.
    by destruct (Hnr i _ Hi e0).
  - destruct H as (_ & Hv & _). apply values_Some_fulfilled in Hv as [_ HF].
    rewrite Forall_lookup in HF. by destruct (HF i _ Hi).
  - destruct (Hrej e eq_refl) as [j Hj]. exists e, j.
    pose proof (run_first_settlement R argv sched j) as Ha.
    unfold agrees in Ha. rewrite Hj in Ha. split; [done|].
    rewrite (Htr Hex Hall). split; [done|].
    unfold reported. rewrite omap_app.
    fold (reported (payload:=payload) (gpmfExtract <$> drop 3 argv)).
    by rewrite reported_calls.
Qed.

(** X8. With four or more entries in [process.argv] the script never
    prints the usage line and never calls [process.exit], whatever fails
    afterwards. *)
Theorem valid_invocation_never_exits R argv sched :
  (4 <= length argv)%nat ->
  List.filter is_usage_exit (trace (run R argv sched)) = [].
Proof.
  intros Hlen. destruct (run_frozen R argv sched) as (_ & _ & -> & _).
  destruct (throws_cases R (drop 3 argv))
    as [Hok|(pre & f & post & err & Hfs & Hpre & Hf)].
  - rewrite (main_ok R argv Hlen Hok). cbn [trace]. apply usage_exit_calls.
  - rewrite (main_throw R argv pre f post err Hlen Hfs Hpre Hf). cbn [trace].
    by rewrite List.filter_app, usage_exit_calls.
Qed.

End ScriptStages.

(** * The further properties on the sample inputs *)

Section MoreSamples.
Import Stream Loader Script.

Example no_track_trace :
  trace (run Sample.node Sample.argv Sample.no_track)
  = [gpmfExtract "GX010001.MP4"; gpmfExtract "GX020001.MP4";
     goproTelemetry ["gpmf-1"; "gpmf-2"] "geojson";
     unhandledRejection "no GPS stream"].
Proof. reflexivity. Qed.

Example both_bad_trace :
  trace (run Sample.node Sample.argv Sample.both_bad)
  = [gpmfExtract "GX010001.MP4"; gpmfExtract "GX020001.MP4";
     unhandledRejection "moov not found"].
Proof. reflexivity. Qed.

Lemma small_file_single_block_witness :
  (Sample.clip <> [] /\ Z.of_nat (length Sample.clip) <= 4 * 1024 * 1024)
  /\ bufferAppender (<["GX010001.MP4" := File Sample.clip None]> Sample.card)
       "GX010001.MP4" []
     = Drained (Closure (Z.of_nat (length Sample.clip))
                 [appendBuffer 0 Sample.clip; flush]).
Proof.
  split; [split; [discriminate|simpl; lia]|].
  apply (small_file_single_block Sample.card "GX010001.MP4" Sample.clip).
  - discriminate.
  - simpl; lia.
Defined.

Lemma synchronous_throw_stops_the_loop_witness :
  ((4 <= length Sample.argv)%nat
   /\ drop 3 Sample.argv = ["GX010001.MP4"] ++ "GX020001.MP4" :: []
   /\ Forall (fun f => gpmfExtract_throws Sample.node_throwing f = None)
        ["GX010001.MP4"]
   /\ gpmfExtract_throws Sample.node_throwing "GX020001.MP4" = Some "TypeError")
  /\ extractions (trace (run Sample.node_throwing Sample.argv Sample.all_good))
     = ["GX010001.MP4"] ++ ["GX020001.MP4"]
  /\ caught (trace (run Sample.node_throwing Sample.argv Sample.all_good))
     = ["TypeError"]
  /\ length (promises (run Sample.node_throwing Sample.argv Sample.all_good))
     = length ["GX010001.MP4"]
  /\ all (run Sample.node_throwing Sample.argv Sample.all_good) = None
  /\ interpretations (trace (run Sample.node_throwing Sample.argv Sample.all_good)) = []
  /\ writes (trace (run Sample.node_throwing Sample.argv Sample.all_good)) = [].
Proof.
  split; [repeat split; [simpl; lia|repeat constructor]|].
  apply (synchronous_throw_stops_the_loop Sample.node_throwing Sample.argv
           Sample.all_good ["GX010001.MP4"] "GX020001.MP4" [] "TypeError").
  - simpl; lia.
  - reflexivity.
  - repeat constructor.
  - reflexivity.
Defined.

Lemma interpreter_rejection_trace_witness :
  (exited (run Sample.node Sample.argv Sample.no_track) = false
   /\ interpreted (run Sample.node Sample.argv Sample.no_track)
      = Some (rejected "no GPS stream"))
  /\ exists extracted,
    values (promises (run Sample.node Sample.argv Sample.no_track)) = Some extracted
    /\ trace (run Sample.node Sample.argv Sample.no_track) =
         (gpmfExtract <$> drop 3 Sample.argv)
         ++ [goproTelemetry extracted "geojson"; unhandledRejection "no GPS stream"]
    /\ writes (trace (run Sample.node Sample.argv Sample.no_track)) = [].
Proof.
  split; [split; reflexivity|].
  apply (interpreter_rejection_trace Sample.node Sample.argv Sample.no_track
           "no GPS stream"); reflexivity.
Defined.

Lemma rejections_give_one_report_witness :
  (Forall (fun f => gpmfExtract_throws Sample.node f = None) (drop 3 Sample.argv)
   /\ exited (run Sample.node Sample.argv Sample.both_bad) = false
   /\ promises (run Sample.node Sample.argv Sample.both_bad) !! 0%nat
      = Some (rejected "truncated"))
  /\ exists e j,
    first_settlement Sample.both_bad j = Some (rejected e)
    /\ trace (run Sample.node Sample.argv Sample.both_bad)
       = (gpmfExtract <$> drop 3 Sample.argv) ++ [unhandledRejection e]
    /\ reported (trace (run Sample.node Sample.argv Sample.both_bad)) = [e].
Proof.
  split; [repeat split; repeat constructor|].
  apply (rejections_give_one_report Sample.node Sample.argv Sample.both_bad
           0%nat "truncated").
  - repeat constructor.
  - reflexivity.
  - reflexivity.
Defined.

Lemma valid_invocation_never_exits_witness :
  (4 <= length Sample.argv)%nat
  /\ List.filter is_usage_exit
       (trace (run Sample.node_throwing Sample.argv Sample.one_bad)) = [].
Proof.
  split; [simpl; lia|].
  apply (valid_invocation_never_exits Sample.node_throwing Sample.argv Sample.one_bad).
  simpl; lia.
Defined.

End MoreSamples.

(** * The blocks and the file *)

Section LoaderBlocks.
Import Stream Loader.

Lemma chunks_data (bl : list bytes) (last_event : event) :
  match last_event with EData _ => False | _ => True end ->
  chunks ((EData <$> bl) ++ [last_event]) = bl.
Proof.
  intros Hl. unfold chunks. rewrite omap_app.
  replace (omap _ [last_event]) with (@nil bytes) by (by destruct last_event).
  rewrite app_nil_r. induction bl as [|b bl IH]; [done|].
  cbn. f_equal. apply IH.
Qed.

(** The stream of a file whose [j]-th read fails before the end. *)
Lemma stream_faulty hwm d path content j e (bl : list bytes) :
  createReadStream (<[path := File content None]> d) path hwm
    = (EData <$> bl) ++ [EEnd] ->
  (j <= length bl)%nat ->
  createReadStream (<[path := File content (Some (j, e))]> d) path hwm
    = (EData <$> take j bl) ++ [EError e].
Proof.
  unfold createReadStream. rewrite !lookup_insert_eq.
  cbn [contents read_fault]. intros Hev Hj. rewrite read_loop_fault by lia.
  cbn zeta. rewrite Hev.
  rewrite decide_True by (rewrite length_app, length_fmap; simpl; lia).
  rewrite Nat.sub_0_r, take_app_le by (rewrite length_fmap; lia).
  by rewrite <- fmap_take.
Qed.

(** Every block the stream reads is handed to [appendBuffer], in order,
    and nothing else is. *)
Lemma loader_reports_chunks hwm d path :
  0 < hwm ->
  buffers (calls (resume (createReadStream d path hwm) listeners (Closure 0 [])))
    = chunks (createReadStream d path hwm).
Proof.
  intros Hh. destruct (d !! path) as [[content fault]|] eqn:Hd.
  - rewrite <- (insert_id d path _ Hd).
    destruct (loader_healthy hwm d path content Hh)
      as (bl & Hev & Hrun & _ & _ & _).
    assert (Hwhole : buffers (append_calls 0 bl ++ [flush]) = bl).
    { rewrite buffers_app, buffers_append_calls. apply app_nil_r. }
    destruct fault as [[j e]|].
    + destruct (le_lt_dec j (length bl)) as [Hj|Hj].
      * rewrite (loader_faulty hwm d path content j e bl Hev Hj).
        rewrite (stream_faulty hwm d path content j e bl Hev Hj).
        cbn [calls mp4boxFile]. by rewrite buffers_append_calls, chunks_data.
      * rewrite (loader_fault_late hwm d path content j e bl Hev Hj).
        rewrite <- Hev at 1. rewrite Hrun. cbn [calls mp4boxFile].
        by rewrite Hwhole, chunks_data.
    + rewrite Hrun, Hev. cbn [calls mp4boxFile]. by rewrite Hwhole, chunks_data.
  - unfold createReadStream. rewrite Hd. reflexivity.
Qed.

(** Cut into full blocks and a last one, a sequence is cut at the
    multiples of the block size. *)
Lemma chunk_formula (n : nat) (bl : list bytes) :
  Forall (fun b : bytes => (length b <= n)%nat) bl ->
  Forall (fun b : bytes => length b = n) (removelast bl) ->
  bl = (fun i => take n (drop (i * n) (concat bl))) <$> seq 0 (length bl).
Proof.
  induction bl as [|b bl IH]; intros Hsz Hfull; [done|].
  apply Forall_cons in Hsz as [Hb Hsz].
  cbn [length seq fmap list_fmap concat]. f_equal.
  - cbn [Nat.mul drop]. destruct bl as [|b' bl].
    + cbn [concat]. rewrite app_nil_r. symmetry. by apply take_ge.
    + change (removelast (b :: b' :: bl)) with (b :: removelast (b' :: bl)) in Hfull.
      apply Forall_cons in Hfull as [Hn _]. symmetry. by apply take_app_length'.
  - destruct bl as [|b' bl]; [done|].
    change (removelast (b :: b' :: bl)) with (b :: removelast (b' :: bl)) in Hfull.
    apply Forall_cons in Hfull as [Hn Hfull].
    rewrite (IH Hsz Hfull) at 1.
    change (list_fmap _ _ ?f ?l) with (f <$> l).
    rewrite <- fmap_S_seq, <- list_fmap_compose. apply list_fmap_ext.
    intros k i _. simpl. f_equal.
    replace (n + i * n)%nat with (length b + i * n)%nat by lia.
    by rewrite drop_app_add.
Qed.

Lemma sum_take_full hwm (bl : list bytes) (i : nat) :
  Forall (fun b : bytes => Z.of_nat (length b) = hwm) (removelast bl) ->
  (i < length bl)%nat ->
  Z.of_nat (sum_list (length <$> take i bl)) = Z.of_nat i * hwm.
Proof.
  revert i. induction bl as [|b bl IH]; intros i Hfull Hi; [simpl in Hi; lia|].
  destruct i as [|i]; [simpl; lia|].
  destruct bl as [|b' bl]; [simpl in Hi; lia|].
  change (removelast (b :: b' :: bl)) with (b :: removelast (b' :: bl)) in Hfull.
  apply Forall_cons in Hfull as [Hn Hfull].
  cbn [take fmap list_fmap sum_list sum_list_with].
  change (list_fmap _ _ ?f ?l) with (f <$> l).
  change (sum_list_with id ?l) with (sum_list l).
  rewrite Nat2Z.inj_add, IH by (done || simpl in *; lia). unfold id. lia.
Qed.

Lemma block_starts_full hwm (bl : list bytes) :
  Forall (fun b : bytes => Z.of_nat (length b) = hwm) (removelast bl) ->
  block_starts bl = (fun i => Z.of_nat i * hwm) <$> seq 0 (length bl).
Proof.
  intros Hfull. unfold block_starts. apply list_fmap_ext.
  intros k i Hk. apply lookup_seq in Hk as [-> Hk]. by apply sum_take_full.
Qed.

(** The blocks of a file, whole or cut short by a failing read. *)
Lemma loader_blocks (d : disk) (path : string) (content : bytes)
    (fault : option (nat * error)) :
  exists (bl : list bytes) (k : nat),
    buffers (calls (bufferAppender (<[path := File content None]> d) path [])) = bl
    /\ buffers (calls (bufferAppender (<[path := File content fault]> d) path []))
       = take k bl
    /\ concat bl = content
    /\ Forall (fun b : bytes =>
                 (0 < length b)%nat /\ Z.of_nat (length b) <= 4 * 1024 * 1024) bl
    /\ Forall (fun b : bytes => Z.of_nat (length b) = 4 * 1024 * 1024) (removelast bl).
Proof.
  rewrite !bufferAppender_unfold.
  destruct (loader_healthy _ d path content highWaterMark_pos)
    as (bl & Hev & Hrun & Hcat & Hsz & Hfull).
  assert (Hwhole : buffers (append_calls 0 bl ++ [flush]) = bl).
  { rewrite buffers_app, buffers_append_calls. apply app_nil_r. }
  exists bl. destruct fault as [[j e]|].
  - destruct (le_lt_dec j (length bl)) as [Hj|Hj].
    + exists j. rewrite (loader_faulty _ d path content j e bl Hev Hj), Hrun.
      cbn [calls mp4boxFile]. by rewrite buffers_append_calls, Hwhole.
    + exists (length bl).
      rewrite (loader_fault_late _ d path content j e bl Hev Hj).
      rewrite <- Hev, Hrun. cbn [calls mp4boxFile].
      by rewrite Hwhole, firstn_all.
  - exists (length bl). rewrite Hrun. cbn [calls mp4boxFile].
    by rewrite Hwhole, firstn_all.
Qed.

(** C7. The loader reads the file in blocks of [4 * 1024 * 1024] bytes.
    For a file that reads to its end, block [i] handed to [appendBuffer]
    is the file's bytes from [i * 4 MiB] up to the next multiple (or the
    end of the file); there are as many blocks as the size divided by
    4 MiB, rounded up, and together they are the file. When a read fails
    the blocks handed over are the first of these. Either way every
    block except possibly the last has exactly [4 * 1024 * 1024] bytes,
    and none is empty or larger. *)
Theorem bufferAppender_block_size (d : disk) (path : string) (content : bytes)
    (fault : option (nat * error)) :
  let whole :=
    buffers (calls (bufferAppender (<[path := File content None]> d) path [])) in
  let blocks :=
    buffers (calls (bufferAppender (<[path := File content fault]> d) path [])) in
  whole = (fun i => take (Z.to_nat (4 * 1024 * 1024))
                      (drop (i * Z.to_nat (4 * 1024 * 1024)) content))
            <$> seq 0 (length whole)
  /\ Z.of_nat (length whole)
     = Z.div (Z.of_nat (length content) + 4 * 1024 * 1024 - 1) (4 * 1024 * 1024)
  /\ concat whole = content
  /\ blocks `prefix_of` whole
  /\ Forall (fun b : bytes => Z.of_nat (length b) = 4 * 1024 * 1024) (removelast blocks)
  /\ Forall (fun b : bytes =>
               (0 < length b)%nat /\ Z.of_nat (length b) <= 4 * 1024 * 1024) blocks.
Proof.
  cbv zeta.
  destruct (loader_blocks d path content fault)
    as (bl & k & -> & -> & Hcat & Hsz & Hfull).
  split; [|split; [|split; [|split; [|split]]]].
  - rewrite <- Hcat. apply chunk_formula.
    + eapply Forall_impl; [exact Hsz|]. intros b [_ Hb]. simpl in *. lia.
    + eapply Forall_impl; [exact Hfull|]. intros b Hb. simpl in *. lia.
  - by apply block_count.
  - done.
  - exists (drop k bl). by rewrite take_drop.
  - by apply Forall_removelast_take.
  - by apply Forall_take.
Qed.

(** C8. Each block the stream reads is handed to [appendBuffer], in the
    order read, with the offset at which it lies in the file: the
    offsets start at 0, each is the total length of the blocks before
    it, and they increase strictly. For a file that reads to its end the
    blocks together are the file, block [i] is reported at offset
    [i * 4 MiB], and [flush] follows the last [appendBuffer]. *)
Theorem bufferAppender_offsets (d : disk) (path : string) (content : bytes) :
  let cs := calls (bufferAppender d path []) in
  let whole := calls (bufferAppender (<[path := File content None]> d) path []) in
  buffers cs = chunks (createReadStream d path (4 * 1024 * 1024))
  /\ offsets cs = block_starts (buffers cs)
  /\ StronglySorted Z.lt (offsets cs)
  /\ concat (buffers whole) = content
  /\ offsets whole
     = (fun i => Z.of_nat i * (4 * 1024 * 1024)) <$> seq 0 (length (buffers whole))
  /\ whole = append_calls 0 (buffers whole) ++ [flush].
Proof.
  cbv zeta.
  assert (Hany : offsets (calls (bufferAppender d path []))
                   = block_starts (buffers (calls (bufferAppender d path [])))
                 /\ StronglySorted Z.lt (offsets (calls (bufferAppender d path [])))).
  { rewrite bufferAppender_unfold.
    destruct (loader_calls _ d path highWaterMark_pos)
      as (bl & tail & -> & Htail & Hsz & Hfull).
    rewrite offsets_app, buffers_app, buffers_append_calls, offsets_append_calls.
    replace (buffers tail) with (@nil bytes) by (by destruct Htail as [-> | ->]).
    replace (offsets tail) with (@nil Z) by (by destruct Htail as [-> | ->]).
    rewrite !app_nil_r. split.
    - rewrite <- (list_fmap_id (block_starts bl)) at 2.
      apply list_fmap_ext. intros; simpl; lia.
    - rewrite <- offsets_append_calls. apply offsets_increasing.
      eapply Forall_impl; [exact Hsz|]. by intros b [? _]. }
  destruct Hany as [Hoff Hsorted].
  split; [|split; [done|split; [done|]]].
  { rewrite bufferAppender_unfold.
    apply loader_reports_chunks, highWaterMark_pos. }
  destruct (loader_blocks d path content None)
    as (bl & _ & Hwhole & _ & Hcat & _ & Hfull).
  destruct (bufferAppender_healthy d path content) as (bl' & _ & Hrun & Hb & _).
  rewrite Hrun in *. cbn [calls mp4boxFile] in *. rewrite Hb in Hwhole. subst bl'.
  rewrite Hb. split; [done|]. split; [|done].
  rewrite offsets_app, offsets_append_calls.
  change (offsets [flush]) with (@nil Z). rewrite app_nil_r.
  rewrite (block_starts_full _ bl Hfull), <- list_fmap_compose.
  apply list_fmap_ext. intros; simpl; lia.
Qed.

End LoaderBlocks.

(** * Runs read off their schedule *)

Section ScriptSchedules.
Import Script.
Context {payload telemetry : Type}.
Implicit Types (s : state payload telemetry) (R : runtime telemetry)
  (ev : event payload telemetry)
  (sched pre later bad full : list (event payload telemetry))
  (ps : list (promise payload)).





















(** C1, as the script has it. When the extraction promise of some file
    is rejected, the [Promise.all] aggregate, if the loop got as far as
    calling it, is rejected (if it did not, a call to [gpmfExtract]
    threw); the interpreter is never called and nothing is written: no
    track is produced for any file of the invocation. *)
Theorem rejection_fails_whole_invocation R argv sched i e :
  promises (run R argv sched) !! i = Some (rejected e) ->
  match all (run R argv sched) with
  | Some aggregate => exists e', aggregate = rejected e'
  | None => Exists (fun f => is_Some (gpmfExtract_throws R f)) (drop 3 argv)
  end
  /\ interpretations (trace (run R argv sched)) = []
  /\ writes (trace (run R argv sched)) = [].
Proof.
  intros Hi. pose proof (run_inv R argv sched) as H. unfold inv in H.
  destruct (all (run R argv sched)) as [[|ex|e']|] eqn:Hall.
  - destruct H as (_ & _ & _ & Hnr & _). rewrite Forall_lookup in Hnr.
    by destruct (Hnr i _ Hi e).
  - destruct H as (_ & Hv & _). apply values_Some_fulfilled in Hv as [_ HF].
    rewrite Forall_lookup in HF. by destruct (HF i _ Hi).
  - destruct H as (_ & _ & -> & ->). split; [by eexists|done].
  - destruct H as (_ & -> & -> & _). split; [|done].
    destruct (le_lt_dec 4 (length argv)) as [Hlen|Hlen].
    + destruct (throws_cases R (drop 3 argv))
        as [Hok|(pre & f & post & err & -> & _ & Hf)].
      * pose proof (run_all_is_Some R argv sched Hlen Hok) as [p Hp]. congruence.
      * apply Exists_app. right. apply Exists_cons. left. by eexists.
    + exfalso. unfold run in Hi. rewrite (main_short R argv Hlen) in Hi.
      by rewrite foldl_step_exited in Hi.
Qed.




End ScriptSchedules.

(** * The revised statements on the sample inputs *)

Section Revised.
Import Stream Loader Script.

(** A runtime that ends the process on the first report never sees the
    second rejection; the trace is the same. *)
Example both_bad_trace_node15 :
  trace (run Sample.node15 Sample.argv Sample.both_bad)
  = [gpmfExtract "GX010001.MP4"; gpmfExtract "GX020001.MP4";
     unhandledRejection "moov not found"]
  /\ promises (run Sample.node15 Sample.argv Sample.both_bad)
     = [pending; rejected "moov not found"].
Proof. split; reflexivity. Qed.

(** The write throws inside the last callback: the call is made, no
    file comes of it, and the runtime reports the exception. *)
Example failed_write_trace :
  trace (run Sample.node_nodir Sample.argv Sample.all_good)
  = [gpmfExtract "GX010001.MP4"; gpmfExtract "GX020001.MP4";
     goproTelemetry ["gpmf-1"; "gpmf-2"] "geojson";
     writeFileSync "0001.geojson" "{track}";
     unhandledRejection "ENOENT: no such file or directory, open"]
  /\ written Sample.node_nodir (trace (run Sample.node_nodir Sample.argv Sample.all_good))
     = [].
Proof. split; reflexivity. Qed.



Lemma rejection_fails_whole_invocation_witness :
  promises (run Sample.node Sample.argv Sample.one_bad) !! 1%nat
    = Some (rejected "moov not found")
  /\ match all (run Sample.node Sample.argv Sample.one_bad) with
     | Some aggregate => exists e', aggregate = rejected e'
     | None => Exists (fun f => is_Some (gpmfExtract_throws Sample.node f))
                 (drop 3 Sample.argv)
     end
  /\ interpretations (trace (run Sample.node Sample.argv Sample.one_bad)) = []
  /\ writes (trace (run Sample.node Sample.argv Sample.one_bad)) = [].
Proof.
  split; [reflexivity|].
  apply (rejection_fails_whole_invocation Sample.node Sample.argv Sample.one_bad
           1%nat "moov not found").
  reflexivity.
Defined.




End Revised.
